(** * node-opus: the OpusEncoder binding of src/node-opus.cc

    A shallow embedding of the C++ class [OpusEncoder] that exposes the
    Opus codec to JavaScript.  The class is glue: it unwraps arguments,
    creates the native encoder and decoder on demand, calls the native
    primitive and wraps the result.  The native library itself is not part
    of the binding, so it is an interface ([OpusLib]) over an abstract
    world [W]; every call the binding makes to it is also recorded, in
    order, in a log, so that statements about "what the native primitive
    was invoked with" are statements about the log.

    Layout: machine integers, JavaScript values, the native interface,
    the method monad, the class, a small executable stand-in for the
    native library, then the theorems. *)

From Stdlib Require Import ZArith Lia.
From Stdlib.Strings Require Import Byte.
From stdpp Require Import base option list strings gmap.

Local Open Scope Z_scope.

(** ** Machine integers *)

Module CInt.

(** [int] and [opus_int32]: 32-bit two's complement. *)
Definition to_int32 (z : Z) : Z := (z + 2 ^ 31) mod 2 ^ 32 - 2 ^ 31.

(** [uint32_t], the type of the size parameter of [NanNewBufferHandle]. *)
Definition to_uint32 (z : Z) : Z := z mod 2 ^ 32.

(** [size_t] on the 64-bit targets the add-on is built for. *)
Definition to_size_t (z : Z) : Z := z mod 2 ^ 64.

Definition in_int32 (z : Z) : Prop := - 2 ^ 31 <= z < 2 ^ 31.

End CInt.

(** ** Constants *)

(** The four [#define]s at the head of the file.  [MAX_FRAME_SIZE] is
    written without parentheses in the source ([6*960]); both of its uses
    ([channels * MAX_FRAME_SIZE] and a bare argument) read the same with
    or without them. *)
Definition FRAME_SIZE : Z := 960.
Definition MAX_FRAME_SIZE : Z := 6 * 960.
Definition MAX_PACKET_SIZE : Z := 3 * 1276.
Definition BITRATE : Z := 64000.

(** Error codes and application profiles of [opus.h] (the header the file
    includes from [deps/opus/include]); the values are those of libopus'
    [opus_defines.h]. *)
Definition OPUS_OK : Z := 0.
Definition OPUS_BAD_ARG : Z := -1.
Definition OPUS_BUFFER_TOO_SMALL : Z := -2.
Definition OPUS_INTERNAL_ERROR : Z := -3.
Definition OPUS_INVALID_PACKET : Z := -4.
Definition OPUS_UNIMPLEMENTED : Z := -5.
Definition OPUS_INVALID_STATE : Z := -6.
Definition OPUS_ALLOC_FAIL : Z := -7.

Definition OPUS_APPLICATION_VOIP : Z := 2048.
Definition OPUS_APPLICATION_AUDIO : Z := 2049.
Definition OPUS_APPLICATION_RESTRICTED_LOWDELAY : Z := 2051.

(** ** getDecodeError *)

(** The [switch] of [getDecodeError], one test per [case] label in source
    order, the [default] last. *)
Definition getDecodeError (decodedSamples : Z) : string :=
  if decodedSamples =? OPUS_BAD_ARG then
    "One or more invalid/out of range arguments"
  else if decodedSamples =? OPUS_BUFFER_TOO_SMALL then
    "The mode struct passed is invalid"
  else if decodedSamples =? OPUS_INTERNAL_ERROR then
    "An internal error was detected"
  else if decodedSamples =? OPUS_INVALID_PACKET then
    "The compressed data passed is corrupted"
  else if decodedSamples =? OPUS_UNIMPLEMENTED then
    "Invalid/unsupported request number."
  else if decodedSamples =? OPUS_INVALID_STATE then
    "An encoder or decoder structure is invalid or already freed."
  else if decodedSamples =? OPUS_ALLOC_FAIL then
    "Memory allocation has failed"
  else
    "Unknown OPUS error".

(** The table the specification speaks of, written out as data: the seven
    native codes, each with its message.  It follows the specification's
    list (bad argument, buffer too small, internal error, corrupted packet,
    unsupported request, invalid state, allocation failure) and is compared
    with [getDecodeError] below. *)
Definition decode_error_table : list (Z * string) :=
  [ (OPUS_BAD_ARG, "One or more invalid/out of range arguments");
    (OPUS_BUFFER_TOO_SMALL, "The mode struct passed is invalid");
    (OPUS_INTERNAL_ERROR, "An internal error was detected");
    (OPUS_INVALID_PACKET, "The compressed data passed is corrupted");
    (OPUS_UNIMPLEMENTED, "Invalid/unsupported request number.");
    (OPUS_INVALID_STATE,
      "An encoder or decoder structure is invalid or already freed.");
    (OPUS_ALLOC_FAIL, "Memory allocation has failed") ].

Definition unknown_error_message : string := "Unknown OPUS error".

Fixpoint table_lookup (tbl : list (Z * string)) (code : Z) : option string :=
  match tbl with
  | [] => None
  | (c, msg) :: rest => if code =? c then Some msg else table_lookup rest code
  end.

(** ** JavaScript values and completions *)

(** What a method can find in [args]: an int32, some other primitive, a
    [Buffer] with its bytes, or an object that is not a [Buffer]. *)
Inductive Value : Type :=
  | VUndefined
  | VInt32 (i : Z)
  | VPrimitive
  | VBuffer (data : list byte)
  | VObject.

Definition IsInt32 (v : Value) : bool :=
  match v with VInt32 _ => true | _ => false end.

Definition IsObject (v : Value) : bool :=
  match v with VBuffer _ | VObject => true | _ => false end.

(** [Int32Value] yields an [int32_t]. *)
Definition Int32Value (v : Value) : Z :=
  match v with VInt32 i => CInt.to_int32 i | _ => 0 end.

(** [Buffer::Data] and [Buffer::Length].  An object without external
    array data has a null data pointer and length 0. *)
Definition Buffer_Data (v : Value) : list byte :=
  match v with VBuffer d => d | _ => [] end.

Definition Buffer_Length (v : Value) : Z :=
  match v with VBuffer d => Z.of_nat (length d) | _ => 0 end.

(** How a method invocation ends, as the JavaScript caller sees it.
    - [ThrowTypeError msg]: [NanThrowTypeError(msg)] in the method body;
    - [ThrowArgumentError i]: the boundary check of argument [i] failed;
    - [ReturnBuffer data size]: the handle of
      [NanNewBufferHandle(data, size)], [data] being the contents of the
      array the pointer designates;
    - [ReturnInteger b]: [NanNew<v8::Integer>(b)];
    - [ReturnIndeterminate]: an integer read from a local that was never
      written;
    - [Fault]: the C++ code itself has no defined behaviour (an integer
      division by zero, an array allocation of negative size). *)
Inductive Completion : Type :=
  | ThrowTypeError (msg : string)
  | ThrowArgumentError (index : nat)
  | ReturnUndefined
  | ReturnThis
  | ReturnInteger (value : Z)
  | ReturnIndeterminate
  | ReturnBuffer (data : list byte) (size : Z)
  | Fault.

Definition is_throw (c : Completion) : bool :=
  match c with ThrowTypeError _ | ThrowArgumentError _ => true | _ => false end.

(** The length of the buffer a completion hands to the caller:
    [NanNewBufferHandle] takes its size as [uint32_t]. *)
Definition returned_length (c : Completion) : option Z :=
  match c with
  | ReturnBuffer _ size => Some (CInt.to_uint32 size)
  | _ => None
  end.

(** The bytes of the returned buffer, when the requested size lies within
    the array it is copied from. *)
Definition returned_bytes (c : Completion) : option (list byte) :=
  match c with
  | ReturnBuffer data size =>
      if (0 <=? size) && (size <=? Z.of_nat (length data))
      then Some (take (Z.to_nat size) data) else None
  | _ => None
  end.

(** ** The native library *)

(** A native handle ([OpusEncoder*], [OpusDecoder*]): [None] is [NULL]. *)
Definition ptr : Type := positive.

(** The entry points of libopus the binding calls, over the library's own
    state [W].  Each takes the arguments of the C function in order
    (output pointers become results) and the world last.
    - [opus_encoder_create rate channels application] gives the handle and
      the value stored through [&error];
    - [opus_encode st pcm frame_size max_data_bytes] gives the return value
      and the bytes written through [data];
    - [opus_decode st data len frame_size decode_fec] gives the return value
      and the bytes written through [pcm];
    - [opus_encoder_ctl_set_bitrate st x] is
      [opus_encoder_ctl(st, OPUS_SET_BITRATE(x))];
    - [opus_encoder_ctl_get_bitrate st] is
      [opus_encoder_ctl(st, OPUS_GET_BITRATE(&x))], with what it stored in
      [x], if anything. *)
Class OpusLib (W : Type) : Type := {
  opus_encoder_create : Z -> Z -> Z -> W -> W * (option ptr * Z);
  opus_decoder_create : Z -> Z -> W -> W * (option ptr * Z);
  opus_encoder_destroy : ptr -> W -> W;
  opus_decoder_destroy : ptr -> W -> W;
  opus_encode : option ptr -> list byte -> Z -> Z -> W -> W * (Z * list byte);
  opus_decode :
    option ptr -> list byte -> Z -> Z -> Z -> W -> W * (Z * list byte);
  opus_encoder_ctl_set_bitrate : option ptr -> Z -> W -> W * Z;
  opus_encoder_ctl_get_bitrate : option ptr -> W -> W * (Z * option Z)
}.

(** One entry of the log per native call, with the arguments passed.  For
    the two calls that are given an output array, [capacity] is the size in
    bytes of the array the output pointer designates. *)
Inductive NativeCall : Type :=
  | Call_encoder_create (rate channels application : Z)
  | Call_decoder_create (rate channels : Z)
  | Call_encoder_destroy (st : ptr)
  | Call_decoder_destroy (st : ptr)
  | Call_encode (st : option ptr) (pcm : list byte) (frame_size : Z)
      (capacity : Z) (max_data_bytes : Z)
  | Call_decode (st : option ptr) (data : list byte) (len : Z)
      (capacity : Z) (frame_size : Z) (decode_fec : Z)
  | Call_set_bitrate (st : option ptr) (bitrate : Z)
  | Call_get_bitrate (st : option ptr).

(** ** The class and its memory *)

(** The data members of [class OpusEncoder].  The two output arrays are
    kept as bytes, [outPcm] too: it only ever leaves the class through a
    [char*]. *)
Record OpusEncoder : Type := mkOpusEncoder {
  encoder : option ptr;
  decoder : option ptr;
  rate : Z;
  channels : Z;
  application : Z;
  outOpus : list byte;
  outPcm : list byte
}.

Definition with_encoder (p : option ptr) (s : OpusEncoder) : OpusEncoder :=
  mkOpusEncoder p (decoder s) (rate s) (channels s) (application s)
    (outOpus s) (outPcm s).

Definition with_decoder (p : option ptr) (s : OpusEncoder) : OpusEncoder :=
  mkOpusEncoder (encoder s) p (rate s) (channels s) (application s)
    (outOpus s) (outPcm s).

Definition with_outOpus (b : list byte) (s : OpusEncoder) : OpusEncoder :=
  mkOpusEncoder (encoder s) (decoder s) (rate s) (channels s) (application s)
    b (outPcm s).

Definition with_outPcm (b : list byte) (s : OpusEncoder) : OpusEncoder :=
  mkOpusEncoder (encoder s) (decoder s) (rate s) (channels s) (application s)
    (outOpus s) b.

(** What a native call leaves in an output array: the bytes written
    replace a prefix of it; bytes written past its end land outside the
    array, which the flag reports.  Where they land (for [outOpus], on
    the members that follow it in the object, the [outPcm] pointer first)
    is not modelled: once the flag is set, the arrays of the model no
    longer describe the object's memory. *)
Definition store (array written : list byte) : list byte * bool :=
  if (length written <=? length array)%nat
  then (written ++ drop (length written) array, false)
  else (take (length array) written, true).

(** The state a method runs in: the unwrapped object, the native library's
    world, the log of native calls, and whether a native call has written
    outside one of the object's arrays. *)
Record Machine (W : Type) : Type := mkMachine {
  self : OpusEncoder;
  native : W;
  calls : list NativeCall;
  overrun : bool
}.
Arguments mkMachine {W} _ _ _ _.
Arguments self {W} _.
Arguments native {W} _.
Arguments calls {W} _.
Arguments overrun {W} _.

(** ** The method monad *)

(** A method body threads a state and either goes on with a value or has
    already completed ([return] inside an argument macro, a fault). *)
Definition M (St A : Type) : Type := St -> St * (Completion + A).

#[global] Instance M_ret {St} : MRet (M St) :=
  fun _ a st => (st, inr a).

#[global] Instance M_bind {St} : MBind (M St) :=
  fun _ _ f m st =>
    match m st with
    | (st', inl c) => (st', inl c)
    | (st', inr a) => f a st'
    end.

Definition complete {St A} (c : Completion) : M St A :=
  fun st => (st, inl c).

Definition gets {St A} (f : St -> A) : M St A :=
  fun st => (st, inr (f st)).

Definition modify {St} (f : St -> St) : M St unit :=
  fun st => (f st, inr tt).

(** Running a method: the state it leaves and how it completed. *)
Definition invoke {St} (m : M St Completion) (st : St) : St * Completion :=
  match m st with
  | (st', inl c) => (st', c)
  | (st', inr c) => (st', c)
  end.

(** ** Argument macros *)

(** Modelled from the spec: the argument macros [REQ_OBJ_ARG],
    [REQ_INT_ARG] and [OPT_INT_ARG] come from [common.h], which is not
    among the sources.  The specification says that a missing required
    argument or one of the wrong type is rejected at the boundary, before
    the native layer is reached, and reported distinctly from native
    failures, and that an omitted optional argument takes its default.
    So each macro either binds its variable or completes the method with
    [ThrowArgumentError].  [REQ_OBJ_ARG] is a required argument that must
    be an object. *)
Definition REQ_OBJ_ARG {St} (I : nat) (args : list Value) : M St Value :=
  match args !! I with
  | Some v => if IsObject v then mret v else complete (ThrowArgumentError I)
  | None => complete (ThrowArgumentError I)
  end.

(** Modelled from the spec: [REQ_INT_ARG] of [common.h] (not among the
    sources), a required argument that must be an int32. *)
Definition REQ_INT_ARG {St} (I : nat) (args : list Value) : M St Z :=
  match args !! I with
  | Some v =>
      if IsInt32 v then mret (Int32Value v)
      else complete (ThrowArgumentError I)
  | None => complete (ThrowArgumentError I)
  end.

(** Modelled from the spec: [OPT_INT_ARG] of [common.h] (not among the
    sources), an argument that takes [DEFAULT] when the call has fewer
    arguments and must be an int32 when it is there. *)
Definition OPT_INT_ARG {St} (I : nat) (args : list Value) (DEFAULT : Z)
  : M St Z :=
  match args !! I with
  | None => mret DEFAULT
  | Some v =>
      if IsInt32 v then mret (Int32Value v)
      else complete (ThrowArgumentError I)
  end.

(** [NanNewBufferHandle(data, size)] followed by [NanReturnValue]. *)
Definition NanNewBufferHandle (data : list byte) (size : Z) : Completion :=
  ReturnBuffer data size.

(** Division of a [size_t] by an [int] converted to [size_t]; a zero
    divisor has no defined result. *)
Definition size_t_div {St} (a b : Z) : M St Z :=
  let d := CInt.to_size_t b in
  if d =? 0 then complete Fault else mret (a / d).

(** ** The constructor, [New] and the destructor *)

(** [OpusEncoder(rate, channels, application)]: both handles null, the
    configuration stored, [outPcm] allocated with
    [channels * MAX_FRAME_SIZE] 16-bit elements.  [None] when that element
    count is negative.  The fresh arrays are taken to hold zeros. *)
Definition OpusEncoder_ctor (rate channels application : Z)
  : option OpusEncoder :=
  let n := CInt.to_int32 (channels * MAX_FRAME_SIZE) in
  if n <? 0 then None
  else Some (mkOpusEncoder None None rate channels application
               (replicate (Z.to_nat MAX_PACKET_SIZE) x00)
               (replicate (Z.to_nat (2 * n)) x00)).

(** [New]: the state is the internal field of [args.This()], which
    [Wrap] fills. *)
Definition New (IsConstructCall : bool) (args : list Value)
  : M (option OpusEncoder) Completion :=
  if negb IsConstructCall then
    mret (ThrowTypeError "Use the new operator to construct the OpusEncoder.")
  else
    rate ← OPT_INT_ARG 0 args 48000;
    channels ← OPT_INT_ARG 1 args 1;
    application ← OPT_INT_ARG 2 args OPUS_APPLICATION_AUDIO;
    match OpusEncoder_ctor rate channels application with
    | None => complete Fault
    | Some obj =>
        modify (fun _ => Some obj);;
        mret ReturnThis
    end.

Section Binding.

Context {W : Type} {lib : OpusLib W}.

#[local] Abbreviation Mach := (Machine W).

(** *** Native calls, logged *)

Definition log (c : NativeCall) (m : Mach) : Mach :=
  mkMachine (self m) (native m) (calls m ++ [c]) (overrun m).

Definition on_self (f : OpusEncoder -> OpusEncoder) (m : Mach) : Mach :=
  mkMachine (f (self m)) (native m) (calls m) (overrun m).

Definition on_native (w : W) (m : Mach) : Mach :=
  mkMachine (self m) w (calls m) (overrun m).

Definition flag_overrun (b : bool) (m : Mach) : Mach :=
  mkMachine (self m) (native m) (calls m) (overrun m || b).

Definition call_encoder_create (rate channels application : Z)
  : M Mach (option ptr * Z) :=
  fun m =>
    let '(w, r) := opus_encoder_create rate channels application (native m) in
    (log (Call_encoder_create rate channels application) (on_native w m),
     inr r).

Definition call_decoder_create (rate channels : Z)
  : M Mach (option ptr * Z) :=
  fun m =>
    let '(w, r) := opus_decoder_create rate channels (native m) in
    (log (Call_decoder_create rate channels) (on_native w m), inr r).

(** [opus_encode(st, pcm, frame_size, &outOpus[0], max_data_bytes)]. *)
Definition call_encode (st : option ptr) (pcm : list byte)
    (frame_size max_data_bytes : Z) : M Mach Z :=
  fun m =>
    let '(w, (ret, written)) :=
      opus_encode st pcm frame_size max_data_bytes (native m) in
    let '(out, over) := store (outOpus (self m)) written in
    (log (Call_encode st pcm frame_size
            (Z.of_nat (length (outOpus (self m)))) max_data_bytes)
       (flag_overrun over (on_self (with_outOpus out) (on_native w m))),
     inr ret).

(** [opus_decode(st, data, len, &outPcm[0], frame_size, decode_fec)]. *)
Definition call_decode (st : option ptr) (data : list byte)
    (len frame_size decode_fec : Z) : M Mach Z :=
  fun m =>
    let '(w, (ret, written)) :=
      opus_decode st data len frame_size decode_fec (native m) in
    let '(out, over) := store (outPcm (self m)) written in
    (log (Call_decode st data len
            (Z.of_nat (length (outPcm (self m)))) frame_size decode_fec)
       (flag_overrun over (on_self (with_outPcm out) (on_native w m))),
     inr ret).

Definition call_set_bitrate (st : option ptr) (bitrate : Z) : M Mach Z :=
  fun m =>
    let '(w, ret) := opus_encoder_ctl_set_bitrate st bitrate (native m) in
    (log (Call_set_bitrate st bitrate) (on_native w m), inr ret).

Definition call_get_bitrate (st : option ptr) : M Mach (Z * option Z) :=
  fun m =>
    let '(w, r) := opus_encoder_ctl_get_bitrate st (native m) in
    (log (Call_get_bitrate st) (on_native w m), inr r).

(** *** Lazy creation *)

Definition EnsureEncoder : M Mach Z :=
  this ← gets self;
  match encoder this with
  | Some _ => mret 0
  | None =>
      '(p, error) ← call_encoder_create
                      (rate this) (channels this) (application this);
      modify (on_self (with_encoder p));;
      mret error
  end.

Definition EnsureDecoder : M Mach Z :=
  this ← gets self;
  match decoder this with
  | Some _ => mret 0
  | None =>
      '(p, error) ← call_decoder_create (rate this) (channels this);
      modify (on_self (with_decoder p));;
      mret error
  end.

(** The machine once the handle has been looked after. *)
Definition after_EnsureEncoder (m : Mach) : Mach := (EnsureEncoder m).1.
Definition after_EnsureDecoder (m : Mach) : Mach := (EnsureDecoder m).1.

(** *** The four methods *)

Definition Encode (args : list Value) : M Mach Completion :=
  EnsureEncoder;;
  pcmBuffer ← REQ_OBJ_ARG 0 args;
  maxPacketSize ← OPT_INT_ARG 1 args MAX_PACKET_SIZE;
  let pcm := Buffer_Data pcmBuffer in
  this ← gets self;
  q ← size_t_div (Buffer_Length pcmBuffer / 2) (channels this);
  let frameSize := CInt.to_int32 q in
  compressedLength ← call_encode (encoder this) pcm frameSize maxPacketSize;
  this ← gets self;
  mret (NanNewBufferHandle (outOpus this) compressedLength).

Definition Decode (args : list Value) : M Mach Completion :=
  compressedBuffer ← REQ_OBJ_ARG 0 args;
  let compressedData := Buffer_Data compressedBuffer in
  let compressedDataLength := Buffer_Length compressedBuffer in
  EnsureDecoder;;
  this ← gets self;
  decodedSamples ← call_decode (decoder this) compressedData
                     (CInt.to_int32 compressedDataLength) MAX_FRAME_SIZE 0;
  if decodedSamples <? 0 then
    mret (ThrowTypeError (getDecodeError decodedSamples))
  else
    this ← gets self;
    let decodedLength := CInt.to_int32 (decodedSamples * 2 * channels this) in
    mret (NanNewBufferHandle (outPcm this) decodedLength).

Definition SetBitrate (args : list Value) : M Mach Completion :=
  bitrate ← REQ_INT_ARG 0 args;
  EnsureEncoder;;
  this ← gets self;
  call_set_bitrate (encoder this) bitrate;;
  mret ReturnUndefined.

Definition GetBitrate (args : list Value) : M Mach Completion :=
  EnsureEncoder;;
  this ← gets self;
  '(_, bitrate) ← call_get_bitrate (encoder this);
  match bitrate with
  | Some b => mret (ReturnInteger b)
  | None => mret ReturnIndeterminate
  end.

(** [~OpusEncoder()]: destroys whichever handles exist and nulls both. *)
Definition destroy (m : Mach) : Mach :=
  let m1 :=
    match encoder (self m) with
    | Some p =>
        log (Call_encoder_destroy p)
          (on_native (opus_encoder_destroy p (native m)) m)
    | None => m
    end in
  let m2 :=
    match decoder (self m1) with
    | Some p =>
        log (Call_decoder_destroy p)
          (on_native (opus_decoder_destroy p (native m1)) m1)
    | None => m1
    end in
  on_self (fun s => with_decoder None (with_encoder None s)) m2.

(** *** Sequences of calls on one object *)

Inductive Op : Type :=
  | OpEncode (args : list Value)
  | OpDecode (args : list Value)
  | OpSetBitrate (args : list Value)
  | OpGetBitrate (args : list Value).

Definition method (op : Op) : M Mach Completion :=
  match op with
  | OpEncode args => Encode args
  | OpDecode args => Decode args
  | OpSetBitrate args => SetBitrate args
  | OpGetBitrate args => GetBitrate args
  end.

Definition step (m : Mach) (op : Op) : Mach := (invoke (method op) m).1.

Definition run (ops : list Op) (m : Mach) : Mach := foldl step m ops.

Definition is_decode (op : Op) : bool :=
  match op with OpDecode _ => true | _ => false end.

(** The [max_data_bytes] of every [opus_encode] in a log, and the
    [decode_fec] of every [opus_decode]. *)
Definition encode_capacities (cs : list NativeCall) : list (Z * Z) :=
  omap (fun c => match c with
                 | Call_encode _ _ _ cap mx => Some (cap, mx)
                 | _ => None
                 end) cs.

Definition decode_fec_flags (cs : list NativeCall) : list Z :=
  omap (fun c => match c with
                 | Call_decode _ _ _ _ _ fec => Some fec
                 | _ => None
                 end) cs.

(** Whether a call gets as far as [EnsureEncoder], or [EnsureDecoder]:
    [Encode] and [GetBitrate] start with it, [SetBitrate] and [Decode]
    check their argument first. *)
Definition reaches_EnsureEncoder (op : Op) : bool :=
  match op with
  | OpEncode _ | OpGetBitrate _ => true
  | OpSetBitrate args => from_option IsInt32 false (args !! 0%nat)
  | OpDecode _ => false
  end.

Definition reaches_EnsureDecoder (op : Op) : bool :=
  match op with
  | OpDecode args => from_option IsObject false (args !! 0%nat)
  | _ => false
  end.

(** *** Reasoning about what a method leaves unchanged *)

(** [stable P c]: running [c] from a machine satisfying [P] ends, however
    it completes, in a machine satisfying [P]. *)
Definition stable {A} (P : Mach -> Prop) (c : M Mach A) : Prop :=
  forall m, P m -> P (c m).1.

(** A property of the two handles alone. *)
Definition about_handles (P : Mach -> Prop) : Prop :=
  forall m m',
    encoder (self m') = encoder (self m) ->
    decoder (self m') = decoder (self m) ->
    P m -> P m'.

(** *** What the binding relies on from libopus *)

(** [opus_encode] returns a negative error code, or the length of the
    packet it wrote, which is at least one byte and at most
    [max_data_bytes]. *)
Definition encode_contract : Prop :=
  forall st pcm frame_size max_data_bytes w w' r written,
    opus_encode st pcm frame_size max_data_bytes w = (w', (r, written)) ->
    r < 0 \/ (0 < r <= max_data_bytes /\ Z.of_nat (length written) = r).

(** A bitrate that [OPUS_SET_BITRATE] accepted is the one
    [OPUS_GET_BITRATE] reports. *)
Definition bitrate_contract (x : Z) : Prop :=
  forall st w w1,
    opus_encoder_ctl_set_bitrate (Some st) x w = (w1, OPUS_OK) ->
    exists w2,
      opus_encoder_ctl_get_bitrate (Some st) w1 = (w2, (OPUS_OK, Some x)).

(** *** What a sequence of calls may do *)

Definition is_destroy (c : NativeCall) : bool :=
  match c with
  | Call_encoder_destroy _ | Call_decoder_destroy _ => true
  | _ => false
  end.

Definition is_encoder_create (c : NativeCall) : bool :=
  match c with Call_encoder_create _ _ _ => true | _ => false end.

Definition is_decoder_create (c : NativeCall) : bool :=
  match c with Call_decoder_create _ _ => true | _ => false end.

(** The native calls a method may make on machine [m]: never a destroy;
    a creation only for a handle that is absent, with the object's own
    configuration; an encode or decode with the object's array as output,
    a decode with [MAX_FRAME_SIZE] and no error correction. *)
Definition permitted (m : Mach) (c : NativeCall) : Prop :=
  match c with
  | Call_encoder_destroy _ | Call_decoder_destroy _ => False
  | Call_encoder_create r ch a =>
      encoder (self m) = None
      /\ r = rate (self m) /\ ch = channels (self m)
      /\ a = application (self m)
  | Call_decoder_create r ch =>
      decoder (self m) = None
      /\ r = rate (self m) /\ ch = channels (self m)
  | Call_encode _ _ _ cap _ => cap = Z.of_nat (length (outOpus (self m)))
  | Call_decode _ _ _ cap fs fec =>
      cap = Z.of_nat (length (outPcm (self m)))
      /\ fs = MAX_FRAME_SIZE /\ fec = 0
  | Call_set_bitrate _ _ | Call_get_bitrate _ => True
  end.

(** [evolves m m']: what relates a machine to the machine any number of
    method calls later. *)
Record evolves (m m' : Mach) : Prop := mkEvolves {
  ev_rate : rate (self m') = rate (self m);
  ev_channels : channels (self m') = channels (self m);
  ev_application : application (self m') = application (self m);
  ev_outOpus : length (outOpus (self m')) = length (outOpus (self m));
  ev_outPcm : length (outPcm (self m')) = length (outPcm (self m));
  ev_encoder :
    forall h, encoder (self m) = Some h -> encoder (self m') = Some h;
  ev_decoder :
    forall h, decoder (self m) = Some h -> decoder (self m') = Some h;
  ev_overrun : overrun m = true -> overrun m' = true;
  ev_calls :
    exists l, calls m' = calls m ++ l /\ Forall (permitted m) l
}.

Definition is_set_bitrate (op : Op) : bool :=
  match op with OpSetBitrate _ => true | _ => false end.

Definition is_encode (op : Op) : bool :=
  match op with OpEncode _ => true | _ => false end.

(** In world [w] the control interface, asked for the bitrate of encoder
    [h], stores [x]. *)
Definition reports_bitrate (h : ptr) (x : Z) (w : W) : Prop :=
  exists w' ret,
    opus_encoder_ctl_get_bitrate (Some h) w = (w', (ret, Some x)).

(** The bitrate of an encoder is changed by [OPUS_SET_BITRATE] only: once
    [x] is reported for [h], it still is after a decoder has been
    created, after an encode, after a decode and after another query. *)
Definition bitrate_undisturbed_contract (h : ptr) (x : Z) : Prop :=
  forall w,
    reports_bitrate h x w ->
    (forall r c, reports_bitrate h x (opus_decoder_create r c w).1)
    /\ (forall st pcm frame_size max_data_bytes,
          reports_bitrate h x
            (opus_encode st pcm frame_size max_data_bytes w).1)
    /\ (forall st data len frame_size decode_fec,
          reports_bitrate h x
            (opus_decode st data len frame_size decode_fec w).1)
    /\ (forall st,
          reports_bitrate h x (opus_encoder_ctl_get_bitrate st w).1).

(** The encoder [h] is the object's and the library reports [x] for it. *)
Definition bitrate_is (h : ptr) (x : Z) (m : Mach) : Prop :=
  encoder (self m) = Some h /\ reports_bitrate h x (native m).

(** A property of the contents of [outPcm] alone, and one of the
    contents of [outOpus] alone. *)
Definition about_outPcm (P : Mach -> Prop) : Prop :=
  forall m m', outPcm (self m') = outPcm (self m) -> P m -> P m'.

Definition about_outOpus (P : Mach -> Prop) : Prop :=
  forall m m', outOpus (self m') = outOpus (self m) -> P m -> P m'.

(** The native calls the destructor makes for the handles [e] and [d]. *)
Definition destroy_calls (e d : option ptr) : list NativeCall :=
  match e with Some p => [Call_encoder_destroy p] | None => [] end
  ++ match d with Some p => [Call_decoder_destroy p] | None => [] end.

End Binding.

(** A machine around a freshly constructed object. *)
Definition boot {W} (w : W) (obj : OpusEncoder) : Machine W :=
  mkMachine obj w [] false.

(** ** A stand-in for the native library *)

(** A small executable library with the interface of [OpusLib], used to
    run the binding on concrete inputs.  It keeps libopus' argument
    checks (sampling rates, channel counts, application profiles, frame
    durations of 2.5 to 60 ms, bitrate clamping) and its return
    conventions, and replaces the codec by a packet of one header byte
    naming the frame duration and two payload bytes.  A null or dead
    handle, which libopus would dereference, is answered with
    [OPUS_INVALID_STATE] and remembered in [crashed]. *)
Module StandIn.

(** A live encoder: its rate, whether it is stereo, and the bitrate the
    user has set, if any.  A live decoder: its rate and whether it is
    stereo. *)
Record World : Type := mkWorld {
  encoders : gmap positive (Z * bool * option Z);
  decoders : gmap positive (Z * bool);
  next : positive;
  crashed : bool
}.

Definition empty : World := mkWorld ∅ ∅ 1%positive false.

Definition crash (w : World) : World :=
  mkWorld (encoders w) (decoders w) (next w) true.

Definition valid_rate (Fs : Z) : bool :=
  (Fs =? 8000) || (Fs =? 12000) || (Fs =? 16000) || (Fs =? 24000)
  || (Fs =? 48000).

Definition valid_channels (c : Z) : bool := (c =? 1) || (c =? 2).

Definition count (stereo : bool) : Z := if stereo then 2 else 1.

Definition valid_application (a : Z) : bool :=
  (a =? OPUS_APPLICATION_VOIP) || (a =? OPUS_APPLICATION_AUDIO)
  || (a =? OPUS_APPLICATION_RESTRICTED_LOWDELAY).

(** The header byte for a frame of [n] samples at rate [Fs]. *)
Definition frame_header (Fs n : Z) : option byte :=
  if 400 * n =? Fs then Some x00
  else if 200 * n =? Fs then Some x01
  else if 100 * n =? Fs then Some x02
  else if 50 * n =? Fs then Some x03
  else if 25 * n =? Fs then Some x04
  else if 50 * n =? 3 * Fs then Some x05
  else None.

Definition header_samples (Fs : Z) (b : byte) : option Z :=
  match b with
  | x00 => Some (Fs / 400)
  | x01 => Some (Fs / 200)
  | x02 => Some (Fs / 100)
  | x03 => Some (Fs / 50)
  | x04 => Some (Fs / 25)
  | x05 => Some (3 * Fs / 50)
  | _ => None
  end.

Definition encoder_create (Fs channels application : Z) (w : World)
  : World * (option ptr * Z) :=
  if valid_rate Fs && valid_channels channels
     && valid_application application
  then
    (mkWorld (<[next w := (Fs, channels =? 2, None)]> (encoders w))
       (decoders w) (Pos.succ (next w)) (crashed w),
     (Some (next w), OPUS_OK))
  else (w, (None, OPUS_BAD_ARG)).

Definition decoder_create (Fs channels : Z) (w : World)
  : World * (option ptr * Z) :=
  if valid_rate Fs && valid_channels channels
  then
    (mkWorld (encoders w) (<[next w := (Fs, channels =? 2)]> (decoders w))
       (Pos.succ (next w)) (crashed w),
     (Some (next w), OPUS_OK))
  else (w, (None, OPUS_BAD_ARG)).

Definition encoder_destroy (p : ptr) (w : World) : World :=
  mkWorld (delete p (encoders w)) (decoders w) (next w) (crashed w).

Definition decoder_destroy (p : ptr) (w : World) : World :=
  mkWorld (encoders w) (delete p (decoders w)) (next w) (crashed w).

Definition encode (st : option ptr) (pcm : list byte)
    (frame_size max_data_bytes : Z) (w : World) : World * (Z * list byte) :=
  match st ≫= (fun p => encoders w !! p) with
  | None => (crash w, (OPUS_INVALID_STATE, []))
  | Some (Fs, _, _) =>
      match frame_header Fs frame_size with
      | None => (w, (OPUS_BAD_ARG, []))
      | Some h =>
          if max_data_bytes <=? 0 then (w, (OPUS_BAD_ARG, []))
          else if max_data_bytes <? 3 then (w, (OPUS_BUFFER_TOO_SMALL, []))
          else (w, (3, [h; x00; x00]))
      end
  end.

Definition decode (st : option ptr) (data : list byte)
    (len frame_size decode_fec : Z) (w : World) : World * (Z * list byte) :=
  match st ≫= (fun p => decoders w !! p) with
  | None => (crash w, (OPUS_INVALID_STATE, []))
  | Some (Fs, stereo) =>
      if len <? 0 then (w, (OPUS_BAD_ARG, []))
      else if len =? 0 then
        (* packet loss: conceal [frame_size] samples *)
        if (frame_size mod (Fs / 400) =? 0) && (0 <? frame_size)
        then (w, (frame_size,
                  replicate (Z.to_nat (2 * count stereo * frame_size)) x00))
        else (w, (OPUS_BAD_ARG, []))
      else
        match head data ≫= header_samples Fs with
        | None => (w, (OPUS_INVALID_PACKET, []))
        | Some n =>
            if frame_size <? n then (w, (OPUS_BUFFER_TOO_SMALL, []))
            else (w, (n, replicate (Z.to_nat (2 * count stereo * n)) x00))
        end
  end.

Definition OPUS_AUTO : Z := -1000.
Definition OPUS_BITRATE_MAX : Z := -1.

Definition put_bitrate (p : ptr) (Fs : Z) (stereo : bool) (v : option Z)
    (w : World) : World * Z :=
  (mkWorld (<[p := (Fs, stereo, v)]> (encoders w)) (decoders w) (next w)
     (crashed w), OPUS_OK).

Definition ctl_set_bitrate (st : option ptr) (x : Z) (w : World)
  : World * Z :=
  match st ≫= (fun p => (p,.) <$> encoders w !! p) with
  | None => (crash w, OPUS_INVALID_STATE)
  | Some (p, (Fs, stereo, _)) =>
      let top := 300000 * count stereo in
      if x =? OPUS_AUTO then put_bitrate p Fs stereo None w
      else if x =? OPUS_BITRATE_MAX then put_bitrate p Fs stereo (Some top) w
      else if x <=? 0 then (w, OPUS_BAD_ARG)
      else if x <=? 500 then put_bitrate p Fs stereo (Some 500) w
      else if top <? x then put_bitrate p Fs stereo (Some top) w
      else put_bitrate p Fs stereo (Some x) w
  end.

Definition ctl_get_bitrate (st : option ptr) (w : World)
  : World * (Z * option Z) :=
  match st ≫= (fun p => encoders w !! p) with
  | None => (crash w, (OPUS_INVALID_STATE, None))
  | Some (Fs, stereo, Some b) => (w, (OPUS_OK, Some b))
  | Some (Fs, stereo, None) =>
      (w, (OPUS_OK, Some (24000 + Fs * count stereo)))
  end.

#[global] Instance lib : OpusLib World := {
  opus_encoder_create := encoder_create;
  opus_decoder_create := decoder_create;
  opus_encoder_destroy := encoder_destroy;
  opus_decoder_destroy := decoder_destroy;
  opus_encode := encode;
  opus_decode := decode;
  opus_encoder_ctl_set_bitrate := ctl_set_bitrate;
  opus_encoder_ctl_get_bitrate := ctl_get_bitrate
}.

(** Construction through [New], on a receiver with an empty field. *)
Definition construct (args : list Value) : option OpusEncoder :=
  (invoke (New true args) None).1.

Definition machine (args : list Value) : option (Machine World) :=
  boot empty <$> construct args.

(** [n] bytes of silence. *)
Definition silence (n : nat) : list byte := replicate n x00.

(** The objects of [new OpusEncoder()], [new OpusEncoder(48000, 2)] and
    [new OpusEncoder(44100)], each in a machine of its own. *)
Definition mono : Machine World :=
  boot empty
    (mkOpusEncoder None None 48000 1 OPUS_APPLICATION_AUDIO
       (silence (Z.to_nat MAX_PACKET_SIZE))
       (silence (Z.to_nat (2 * (1 * MAX_FRAME_SIZE))))).

Definition stereo : Machine World :=
  boot empty
    (mkOpusEncoder None None 48000 2 OPUS_APPLICATION_AUDIO
       (silence (Z.to_nat MAX_PACKET_SIZE))
       (silence (Z.to_nat (2 * (2 * MAX_FRAME_SIZE))))).

Definition odd_rate : Machine World :=
  boot empty
    (mkOpusEncoder None None 44100 1 OPUS_APPLICATION_AUDIO
       (silence (Z.to_nat MAX_PACKET_SIZE))
       (silence (Z.to_nat (2 * (1 * MAX_FRAME_SIZE))))).

(** The object of [new OpusEncoder(48000, 0)]: no channel at all. *)
Definition no_channels : Machine World :=
  boot empty
    (mkOpusEncoder None None 48000 0 OPUS_APPLICATION_AUDIO
       (silence (Z.to_nat MAX_PACKET_SIZE)) []).

End StandIn.

(** * Properties *)

(** ** Machine integers *)

Lemma to_int32_id z : CInt.in_int32 z -> CInt.to_int32 z = z.
Proof.
  unfold CInt.in_int32, CInt.to_int32. intros H.
  rewrite Z.mod_small by lia. lia.
Qed.

Lemma to_int32_range z : CInt.in_int32 (CInt.to_int32 z).
Proof.
  unfold CInt.in_int32, CInt.to_int32.
  pose proof (Z.mod_pos_bound (z + 2 ^ 31) (2 ^ 32) ltac:(lia)). lia.
Qed.

Lemma to_uint32_id z : 0 <= z < 2 ^ 32 -> CInt.to_uint32 z = z.
Proof. intros H. unfold CInt.to_uint32. now rewrite Z.mod_small. Qed.

Lemma to_size_t_id z : 0 <= z < 2 ^ 64 -> CInt.to_size_t z = z.
Proof. intros H. unfold CInt.to_size_t. now rewrite Z.mod_small. Qed.

(** Range side conditions, with the powers of two evaluated. *)
Ltac int_range :=
  unfold CInt.in_int32 in *;
  change (2 ^ 31) with 2147483648 in *;
  change (2 ^ 32) with 4294967296 in *;
  change (2 ^ 64) with 18446744073709551616 in *;
  lia.

(** ** The monad and the lazy creation *)

Section MonadFacts.
Context {St : Type}.

Lemma bind_value {A B} (c : M St A) (f : A -> M St B) st st' a :
  c st = (st', inr a) -> (c ≫= f) st = f a st'.
Proof. intros H. unfold mbind, M_bind. now rewrite H. Qed.

Lemma bind_complete {A B} (c : M St A) (f : A -> M St B) st st' k :
  c st = (st', inl k) -> (c ≫= f) st = (st', inl k).
Proof. intros H. unfold mbind, M_bind. now rewrite H. Qed.

Lemma gets_run {A} (f : St -> A) st : gets f st = (st, inr (f st)).
Proof. reflexivity. Qed.

Lemma invoke_value (c : M St Completion) st st' k :
  c st = (st', inr k) -> invoke c st = (st', k).
Proof. intros H. unfold invoke. now rewrite H. Qed.

Lemma invoke_complete (c : M St Completion) st st' k :
  c st = (st', inl k) -> invoke c st = (st', k).
Proof. intros H. unfold invoke. now rewrite H. Qed.

End MonadFacts.

Section Facts.
Context {W : Type} {lib : OpusLib W}.
#[local] Abbreviation Mach := (Machine W).
Implicit Types (m : Mach) (args : list Value) (v : Value).

Lemma EnsureEncoder_run m :
  exists e, EnsureEncoder m = (after_EnsureEncoder m, inr e).
Proof.
  unfold after_EnsureEncoder, EnsureEncoder, call_encoder_create.
  unfold mbind, M_bind, gets, modify, mret, M_ret.
  destruct (encoder (self m)); [by eexists |].
  destruct (opus_encoder_create _ _ _ _) as [w [p e]]. by eexists.
Qed.

Lemma EnsureDecoder_run m :
  exists e, EnsureDecoder m = (after_EnsureDecoder m, inr e).
Proof.
  unfold after_EnsureDecoder, EnsureDecoder, call_decoder_create.
  unfold mbind, M_bind, gets, modify, mret, M_ret.
  destruct (decoder (self m)); [by eexists |].
  destruct (opus_decoder_create _ _ _) as [w [p e]]. by eexists.
Qed.

(** What [EnsureEncoder] leaves behind, case by case. *)
Lemma after_EnsureEncoder_present m h :
  encoder (self m) = Some h -> after_EnsureEncoder m = m.
Proof.
  intros H. unfold after_EnsureEncoder, EnsureEncoder.
  unfold mbind, M_bind, gets. now rewrite H.
Qed.

Lemma after_EnsureEncoder_absent m w p e :
  encoder (self m) = None ->
  opus_encoder_create (rate (self m)) (channels (self m))
    (application (self m)) (native m) = (w, (p, e)) ->
  after_EnsureEncoder m =
    on_self (with_encoder p)
      (log (Call_encoder_create (rate (self m)) (channels (self m))
              (application (self m)))
         (on_native w m)).
Proof.
  intros H Hc. unfold after_EnsureEncoder, EnsureEncoder, call_encoder_create.
  unfold mbind, M_bind, gets, modify, mret, M_ret. rewrite H, Hc. reflexivity.
Qed.

Lemma after_EnsureDecoder_present m h :
  decoder (self m) = Some h -> after_EnsureDecoder m = m.
Proof.
  intros H. unfold after_EnsureDecoder, EnsureDecoder.
  unfold mbind, M_bind, gets. now rewrite H.
Qed.

Lemma after_EnsureDecoder_absent m w p e :
  decoder (self m) = None ->
  opus_decoder_create (rate (self m)) (channels (self m)) (native m)
    = (w, (p, e)) ->
  after_EnsureDecoder m =
    on_self (with_decoder p)
      (log (Call_decoder_create (rate (self m)) (channels (self m)))
         (on_native w m)).
Proof.
  intros H Hc. unfold after_EnsureDecoder, EnsureDecoder, call_decoder_create.
  unfold mbind, M_bind, gets, modify, mret, M_ret. rewrite H, Hc. reflexivity.
Qed.

(** The configuration is never written. *)
Lemma after_EnsureDecoder_channels m :
  channels (self (after_EnsureDecoder m)) = channels (self m).
Proof.
  destruct (decoder (self m)) eqn:E.
  - by erewrite after_EnsureDecoder_present.
  - destruct (opus_decoder_create (rate (self m)) (channels (self m))
                (native m)) as [w [p e]] eqn:Hc.
    by erewrite after_EnsureDecoder_absent.
Qed.

Lemma after_EnsureEncoder_channels m :
  channels (self (after_EnsureEncoder m)) = channels (self m).
Proof.
  destruct (encoder (self m)) eqn:E.
  - by erewrite after_EnsureEncoder_present.
  - destruct (opus_encoder_create (rate (self m)) (channels (self m))
                (application (self m)) (native m)) as [w [p e]] eqn:Hc.
    by erewrite after_EnsureEncoder_absent.
Qed.

(** [Decode] on a first argument that passes the boundary check: the
    decoder is looked after, the native primitive is called once, and the
    sign of its result selects the completion. *)
Lemma Decode_run m args v w n written :
  args !! 0%nat = Some v -> IsObject v = true ->
  let m1 := after_EnsureDecoder m in
  opus_decode (decoder (self m1)) (Buffer_Data v)
    (CInt.to_int32 (Buffer_Length v)) MAX_FRAME_SIZE 0 (native m1)
    = (w, (n, written)) ->
  let m2 :=
    log (Call_decode (decoder (self m1)) (Buffer_Data v)
           (CInt.to_int32 (Buffer_Length v))
           (Z.of_nat (length (outPcm (self m1)))) MAX_FRAME_SIZE 0)
      (flag_overrun (store (outPcm (self m1)) written).2
         (on_self (with_outPcm (store (outPcm (self m1)) written).1)
            (on_native w m1))) in
  invoke (Decode args) m =
    (m2,
     if n <? 0 then ThrowTypeError (getDecodeError n)
     else NanNewBufferHandle (outPcm (self m2))
            (CInt.to_int32 (n * 2 * channels (self m)))).
Proof.
  intros Ha Hv m1 Hn m2.
  destruct (EnsureDecoder_run m) as [e He].
  unfold invoke, Decode, REQ_OBJ_ARG. rewrite Ha, Hv. cbv iota beta.
  rewrite (bind_value (mret v) _ m m v) by reflexivity.
  rewrite (bind_value _ _ _ _ _ He).
  rewrite (bind_value _ _ _ _ _ (gets_run _ _)).
  fold m1.
  assert (Hc : call_decode (decoder (self m1)) (Buffer_Data v)
                 (CInt.to_int32 (Buffer_Length v)) MAX_FRAME_SIZE 0 m1
               = (m2, inr n)).
  { unfold call_decode. rewrite Hn.
    destruct (store (outPcm (self m1)) written) as [out over] eqn:Hs.
    subst m2. reflexivity. }
  rewrite (bind_value _ _ _ _ _ Hc).
  destruct (n <? 0); [reflexivity |].
  rewrite (bind_value _ _ _ _ _ (gets_run _ _)).
  unfold mret, M_ret. subst m2.
  cbn [self log flag_overrun on_self with_outPcm on_native channels].
  subst m1. now rewrite after_EnsureDecoder_channels.
Qed.

Lemma OPT_INT_ARG_absent {St} (I : nat) args (DEFAULT : Z) (st : St) :
  args !! I = None -> OPT_INT_ARG I args DEFAULT st = (st, inr DEFAULT).
Proof. intros H. unfold OPT_INT_ARG. now rewrite H. Qed.

Lemma OPT_INT_ARG_int {St} (I : nat) args (DEFAULT i : Z) (st : St) :
  args !! I = Some (VInt32 i) ->
  OPT_INT_ARG I args DEFAULT st = (st, inr (CInt.to_int32 i)).
Proof. intros H. unfold OPT_INT_ARG. now rewrite H. Qed.

Lemma OPT_INT_ARG_range {St} (I : nat) args (DEFAULT x : Z) (st st' : St) :
  CInt.in_int32 DEFAULT ->
  OPT_INT_ARG I args DEFAULT st = (st', inr x) -> CInt.in_int32 x.
Proof.
  intros HD. unfold OPT_INT_ARG.
  destruct (args !! I) as [v|]; [| intros [= _ <-]; exact HD].
  destruct v; cbn; try discriminate. intros [= _ <-].
  apply to_int32_range.
Qed.

(** [Encode] on arguments that pass the boundary checks, for an object
    whose channel count is not zero as a [size_t]: the encoder is looked
    after, the native primitive is called once with the frame length
    derived from the input, and whatever it returns becomes the size of
    the returned buffer. *)
Lemma Encode_run m args v maxPacketSize w r written :
  args !! 0%nat = Some v -> IsObject v = true ->
  let m1 := after_EnsureEncoder m in
  OPT_INT_ARG 1 args MAX_PACKET_SIZE m1 = (m1, inr maxPacketSize) ->
  CInt.to_size_t (channels (self m)) <> 0 ->
  let frameSize :=
    CInt.to_int32
      (Buffer_Length v / 2 / CInt.to_size_t (channels (self m))) in
  opus_encode (encoder (self m1)) (Buffer_Data v) frameSize maxPacketSize
    (native m1) = (w, (r, written)) ->
  let m2 :=
    log (Call_encode (encoder (self m1)) (Buffer_Data v) frameSize
           (Z.of_nat (length (outOpus (self m1)))) maxPacketSize)
      (flag_overrun (store (outOpus (self m1)) written).2
         (on_self (with_outOpus (store (outOpus (self m1)) written).1)
            (on_native w m1))) in
  invoke (Encode args) m = (m2, NanNewBufferHandle (outOpus (self m2)) r).
Proof.
  intros Ha Hv m1 Hmax Hch frameSize Hn m2.
  destruct (EnsureEncoder_run m) as [e He]. fold m1 in He.
  unfold invoke, Encode.
  rewrite (bind_value _ _ _ _ _ He).
  unfold REQ_OBJ_ARG. rewrite Ha, Hv. cbv iota beta.
  rewrite (bind_value (mret v) _ m1 m1 v) by reflexivity.
  rewrite (bind_value _ _ _ _ _ Hmax).
  rewrite (bind_value _ _ _ _ _ (gets_run _ _)).
  assert (Hq : @size_t_div Mach (Buffer_Length v / 2) (channels (self m1)) m1
               = (m1, inr (Buffer_Length v / 2
                           / CInt.to_size_t (channels (self m))))).
  { unfold size_t_div. subst m1. rewrite after_EnsureEncoder_channels.
    apply Z.eqb_neq in Hch. now rewrite Hch. }
  rewrite (bind_value _ _ _ _ _ Hq). fold frameSize.
  assert (Hc : call_encode (encoder (self m1)) (Buffer_Data v) frameSize
                 maxPacketSize m1 = (m2, inr r)).
  { unfold call_encode. rewrite Hn.
    destruct (store (outOpus (self m1)) written) as [out over] eqn:Hs.
    subst m2. reflexivity. }
  rewrite (bind_value _ _ _ _ _ Hc).
  rewrite (bind_value _ _ _ _ _ (gets_run _ _)).
  reflexivity.
Qed.

(** [SetBitrate] with an integer argument. *)
Lemma SetBitrate_run m args i w ret :
  args !! 0%nat = Some (VInt32 i) ->
  let bitrate := Int32Value (VInt32 i) in
  let m1 := after_EnsureEncoder m in
  opus_encoder_ctl_set_bitrate (encoder (self m1)) bitrate (native m1)
    = (w, ret) ->
  invoke (SetBitrate args) m =
    (log (Call_set_bitrate (encoder (self m1)) bitrate) (on_native w m1),
     ReturnUndefined).
Proof.
  intros Ha bitrate m1 Hn.
  destruct (EnsureEncoder_run m) as [e He]. fold m1 in He.
  unfold invoke, SetBitrate, REQ_INT_ARG. rewrite Ha. cbv iota beta.
  cbn [IsInt32].
  rewrite (bind_value (mret (Int32Value (VInt32 i))) _ m m _)
    by reflexivity.
  rewrite (bind_value _ _ _ _ _ He).
  rewrite (bind_value _ _ _ _ _ (gets_run _ _)).
  assert (Hc : call_set_bitrate (encoder (self m1)) bitrate m1
               = (log (Call_set_bitrate (encoder (self m1)) bitrate)
                    (on_native w m1), inr ret)).
  { unfold call_set_bitrate. now rewrite Hn. }
  rewrite (bind_value _ _ _ _ _ Hc). reflexivity.
Qed.

(** [GetBitrate]: whatever the control call stored is returned. *)
Lemma GetBitrate_run m args w ret stored :
  let m1 := after_EnsureEncoder m in
  opus_encoder_ctl_get_bitrate (encoder (self m1)) (native m1)
    = (w, (ret, stored)) ->
  invoke (GetBitrate args) m =
    (log (Call_get_bitrate (encoder (self m1))) (on_native w m1),
     match stored with
     | Some b => ReturnInteger b
     | None => ReturnIndeterminate
     end).
Proof.
  intros m1 Hn.
  destruct (EnsureEncoder_run m) as [e He]. fold m1 in He.
  unfold invoke, GetBitrate.
  rewrite (bind_value _ _ _ _ _ He).
  rewrite (bind_value _ _ _ _ _ (gets_run _ _)).
  assert (Hc : call_get_bitrate (encoder (self m1)) m1
               = (log (Call_get_bitrate (encoder (self m1)))
                    (on_native w m1), inr (ret, stored))).
  { unfold call_get_bitrate. now rewrite Hn. }
  rewrite (bind_value _ _ _ _ _ Hc).
  destruct stored; reflexivity.
Qed.

(** ** Decoding *)

Lemma getDecodeError_table code :
  getDecodeError code
  = default unknown_error_message (table_lookup decode_error_table code).
Proof.
  unfold getDecodeError, decode_error_table, table_lookup.
  repeat (destruct (code =? _); [reflexivity |]). reflexivity.
Qed.

Lemma table_lookup_outside tbl code :
  code ∉ tbl.*1 -> table_lookup tbl code = None.
Proof.
  induction tbl as [| [c msg] tbl IH]; [reflexivity |].
  cbn [fmap list_fmap fst table_lookup]. intros Hn.
  apply not_elem_of_cons in Hn as [Hne Hn].
  destruct (Z.eqb_spec code c); [done | auto].
Qed.

Lemma after_EnsureDecoder_fec m :
  decode_fec_flags (calls (after_EnsureDecoder m))
  = decode_fec_flags (calls m).
Proof.
  destruct (decoder (self m)) eqn:E.
  - by erewrite after_EnsureDecoder_present.
  - destruct (opus_decoder_create (rate (self m)) (channels (self m))
                (native m)) as [w [p e]] eqn:Hc.
    erewrite after_EnsureDecoder_absent by eassumption.
    cbn [calls log on_self on_native]. unfold decode_fec_flags.
    rewrite omap_app. cbn. apply app_nil_r.
Qed.

(** C3. Whenever the native decode primitive returns a negative status,
    [Decode] throws, and the message thrown is [getDecodeError] of that
    status; [getDecodeError] is the lookup in the fixed table of the seven
    native codes (bad argument, buffer too small, internal error,
    corrupted packet, unsupported request, invalid state, allocation
    failure), with the generic unknown-error message for every code
    outside the table. *)
Theorem Decode_negative_status_throws_table_message m args v w n written :
  args !! 0%nat = Some v -> IsObject v = true ->
  let m1 := after_EnsureDecoder m in
  opus_decode (decoder (self m1)) (Buffer_Data v)
    (CInt.to_int32 (Buffer_Length v)) MAX_FRAME_SIZE 0 (native m1)
    = (w, (n, written)) ->
  n < 0 ->
  (invoke (Decode args) m).2 = ThrowTypeError (getDecodeError n)
  /\ (forall code,
        getDecodeError code
        = default unknown_error_message
            (table_lookup decode_error_table code))
  /\ decode_error_table.*1
     = [OPUS_BAD_ARG; OPUS_BUFFER_TOO_SMALL; OPUS_INTERNAL_ERROR;
        OPUS_INVALID_PACKET; OPUS_UNIMPLEMENTED; OPUS_INVALID_STATE;
        OPUS_ALLOC_FAIL]
  /\ NoDup decode_error_table.*1
  /\ (forall code,
        code ∉ decode_error_table.*1 ->
        getDecodeError code = unknown_error_message).
Proof.
  intros Ha Hv m1 Hn Hneg.
  split; [| split; [| split; [| split]]].
  - rewrite (Decode_run m args v w n written Ha Hv Hn). cbn [snd].
    apply Z.ltb_lt in Hneg. now rewrite Hneg.
  - apply getDecodeError_table.
  - reflexivity.
  - apply (bool_decide_unpack _). by vm_compute.
  - intros code Hout. rewrite getDecodeError_table.
    now rewrite (table_lookup_outside _ _ Hout).
Qed.

(** C4. Whenever the native decode primitive returns a sample count
    [n >= 0] (with [n * 2 * channels] within the range of [int], in which
    [decodedLength] is computed), that primitive was invoked exactly once,
    with [decode_fec] equal to 0 and a frame capacity of [MAX_FRAME_SIZE],
    and the buffer returned has length exactly [n * 2 * channels]. *)
Theorem Decode_success_fec_disabled_and_length m args v w n written :
  args !! 0%nat = Some v -> IsObject v = true ->
  let m1 := after_EnsureDecoder m in
  opus_decode (decoder (self m1)) (Buffer_Data v)
    (CInt.to_int32 (Buffer_Length v)) MAX_FRAME_SIZE 0 (native m1)
    = (w, (n, written)) ->
  0 <= n ->
  0 <= n * 2 * channels (self m) < 2 ^ 31 ->
  let r := invoke (Decode args) m in
  calls r.1
  = calls m1 ++ [Call_decode (decoder (self m1)) (Buffer_Data v)
                   (CInt.to_int32 (Buffer_Length v))
                   (Z.of_nat (length (outPcm (self m1)))) MAX_FRAME_SIZE 0]
  /\ decode_fec_flags (calls r.1) = decode_fec_flags (calls m) ++ [0]
  /\ r.2 = ReturnBuffer (outPcm (self r.1)) (n * 2 * channels (self m))
  /\ returned_length r.2 = Some (n * 2 * channels (self m)).
Proof.
  intros Ha Hv m1 Hn Hpos Hrange r. subst r.
  rewrite (Decode_run m args v w n written Ha Hv Hn). fold m1.
  cbn [fst snd calls log flag_overrun on_self on_native].
  assert (Hlt : (n <? 0) = false) by (apply Z.ltb_ge; lia).
  rewrite Hlt. unfold NanNewBufferHandle.
  rewrite (to_int32_id (n * 2 * channels (self m))) by int_range.
  repeat split.
  - unfold decode_fec_flags. rewrite omap_app. cbn.
    fold (decode_fec_flags (calls m1)). subst m1.
    now rewrite after_EnsureDecoder_fec.
  - cbn [returned_length]. rewrite to_uint32_id by int_range. reflexivity.
Qed.

(** For mono and stereo objects, the only ones libopus creates a decoder
    for, and a sample count within the capacity the primitive was given,
    the length computation stays in range. *)
Lemma decoded_length_in_range n ch :
  1 <= ch <= 2 -> 0 <= n <= MAX_FRAME_SIZE -> 0 <= n * 2 * ch < 2 ^ 31.
Proof. unfold MAX_FRAME_SIZE. intros. change (2 ^ 31) with 2147483648. nia. Qed.

(** ** Encoding *)

Lemma store_length (array written : list byte) :
  length (store array written).1 = length array.
Proof.
  unfold store. destruct (Nat.leb_spec (length written) (length array)).
  - cbn. rewrite length_app, length_drop. lia.
  - cbn. rewrite length_take. lia.
Qed.

Lemma store_prefix (array written : list byte) :
  (length written <= length array)%nat ->
  take (length written) (store array written).1 = written.
Proof.
  intros H. unfold store.
  destruct (Nat.leb_spec (length written) (length array)); [| lia].
  cbn. now rewrite take_app_length.
Qed.

Lemma store_overrun (array written : list byte) :
  (store array written).2 = (length array <? length written)%nat.
Proof.
  unfold store.
  destruct (Nat.leb_spec (length written) (length array)); cbn; symmetry.
  - apply Nat.ltb_ge; lia.
  - apply Nat.ltb_lt; lia.
Qed.

Lemma after_EnsureEncoder_outOpus m :
  outOpus (self (after_EnsureEncoder m)) = outOpus (self m).
Proof.
  destruct (encoder (self m)) eqn:E.
  - by erewrite after_EnsureEncoder_present.
  - destruct (opus_encoder_create (rate (self m)) (channels (self m))
                (application (self m)) (native m)) as [w [p e]] eqn:Hc.
    by erewrite after_EnsureEncoder_absent.
Qed.

Lemma after_EnsureEncoder_overrun m :
  overrun (after_EnsureEncoder m) = overrun m.
Proof.
  destruct (encoder (self m)) eqn:E.
  - by erewrite after_EnsureEncoder_present.
  - destruct (opus_encoder_create (rate (self m)) (channels (self m))
                (application (self m)) (native m)) as [w [p e]] eqn:Hc.
    by erewrite after_EnsureEncoder_absent.
Qed.

Lemma after_EnsureEncoder_capacities m :
  encode_capacities (calls (after_EnsureEncoder m))
  = encode_capacities (calls m).
Proof.
  destruct (encoder (self m)) eqn:E.
  - by erewrite after_EnsureEncoder_present.
  - destruct (opus_encoder_create (rate (self m)) (channels (self m))
                (application (self m)) (native m)) as [w [p e]] eqn:Hc.
    erewrite after_EnsureEncoder_absent by eassumption.
    cbn [calls log on_self on_native]. unfold encode_capacities.
    rewrite omap_app. cbn. apply app_nil_r.
Qed.

(** C1. What [Encode] does with a negative status of the native encode
    primitive: it does not throw; the status becomes the size argument of
    the buffer that is returned, which as [uint32_t] is [r + 2^32]. *)
Theorem Encode_negative_status_returned_as_data
    m args v maxPacketSize w r written :
  args !! 0%nat = Some v -> IsObject v = true ->
  let m1 := after_EnsureEncoder m in
  OPT_INT_ARG 1 args MAX_PACKET_SIZE m1 = (m1, inr maxPacketSize) ->
  CInt.to_size_t (channels (self m)) <> 0 ->
  let frameSize :=
    CInt.to_int32
      (Buffer_Length v / 2 / CInt.to_size_t (channels (self m))) in
  opus_encode (encoder (self m1)) (Buffer_Data v) frameSize maxPacketSize
    (native m1) = (w, (r, written)) ->
  - 2 ^ 31 <= r < 0 ->
  let c := (invoke (Encode args) m).2 in
  (exists data, c = ReturnBuffer data r)
  /\ is_throw c = false
  /\ returned_length c = Some (r + 2 ^ 32).
Proof.
  intros Ha Hv m1 Hmax Hch frameSize Hn Hneg c. subst c.
  rewrite (Encode_run m args v maxPacketSize w r written Ha Hv Hmax Hch Hn).
  cbn [snd]. unfold NanNewBufferHandle. repeat split.
  - eexists; reflexivity.
  - cbn [returned_length]. f_equal. unfold CInt.to_uint32.
    rewrite <- (Z.mod_add r 1 (2 ^ 32)) by int_range.
    apply Z.mod_small. int_range.
Qed.

(** C2. What [Encode] does when the encoder is absent and native creation
    fails (a null handle and an error code): the code returned by
    [EnsureEncoder] is dropped, the handle stays null, the native encode
    primitive is called on the null handle, and nothing is thrown. *)
Theorem Encode_ignores_failed_creation m args v maxPacketSize w0 error :
  encoder (self m) = None ->
  opus_encoder_create (rate (self m)) (channels (self m))
    (application (self m)) (native m) = (w0, (None, error)) ->
  args !! 0%nat = Some v -> IsObject v = true ->
  let m1 := after_EnsureEncoder m in
  OPT_INT_ARG 1 args MAX_PACKET_SIZE m1 = (m1, inr maxPacketSize) ->
  CInt.to_size_t (channels (self m)) <> 0 ->
  let r := invoke (Encode args) m in
  is_throw r.2 = false
  /\ encoder (self r.1) = None
  /\ (exists frameSize capacity,
        calls r.1
        = calls m
          ++ [Call_encoder_create (rate (self m)) (channels (self m))
                (application (self m));
              Call_encode None (Buffer_Data v) frameSize capacity
                maxPacketSize]).
Proof.
  intros He Hc Ha Hv m1 Hmax Hch r. subst r.
  destruct (opus_encode (encoder (self m1)) (Buffer_Data v)
              (CInt.to_int32 (Buffer_Length v / 2
                              / CInt.to_size_t (channels (self m))))
              maxPacketSize (native m1)) as [w [r written]] eqn:Hn.
  rewrite (Encode_run m args v maxPacketSize w r written Ha Hv Hmax Hch Hn).
  fold m1. cbn [fst snd]. unfold NanNewBufferHandle.
  assert (Hm1 : m1 = on_self (with_encoder None)
                  (log (Call_encoder_create (rate (self m))
                          (channels (self m)) (application (self m)))
                     (on_native w0 m)))
    by (eapply after_EnsureEncoder_absent; eassumption).
  repeat split.
  - cbn. now rewrite Hm1.
  - do 2 eexists. cbn [calls log flag_overrun on_self on_native].
    rewrite Hm1 at 1. cbn [calls log on_self on_native].
    rewrite <- app_assoc. cbn [app]. do 3 f_equal. now rewrite Hm1.
Qed.

(** C5, as amended. For a PCM buffer whose length is an exact multiple
    of [channels * 2] and for which the native encoder reports a length
    and not a negative status, [Encode] hands the whole input to the
    native encoder as one frame of [length / (channels * 2)] samples per
    channel, with the caller's [maxPacketSize] as capacity, and returns a
    buffer whose length is exactly the length the encoder reported; with
    a native encoder that keeps to [encode_contract] that length is at
    least 1 and at most [maxPacketSize], and when it fits the object's
    output array the buffer holds the bytes the encoder wrote.  Nothing
    is said of a negative status. *)
Theorem Encode_accepted_input_length m args v maxPacketSize w r written :
  encode_contract ->
  args !! 0%nat = Some v -> IsObject v = true ->
  let m1 := after_EnsureEncoder m in
  OPT_INT_ARG 1 args MAX_PACKET_SIZE m1 = (m1, inr maxPacketSize) ->
  0 < channels (self m) < 2 ^ 31 ->
  Buffer_Length v mod (channels (self m) * 2) = 0 ->
  Buffer_Length v < 2 ^ 32 ->
  let frameSize := Buffer_Length v / (channels (self m) * 2) in
  opus_encode (encoder (self m1)) (Buffer_Data v) frameSize maxPacketSize
    (native m1) = (w, (r, written)) ->
  0 <= r ->
  let c := (invoke (Encode args) m).2 in
  let m2 := (invoke (Encode args) m).1 in
  calls m2
  = calls m1 ++ [Call_encode (encoder (self m1)) (Buffer_Data v)
                   frameSize (Z.of_nat (length (outOpus (self m))))
                   maxPacketSize]
  /\ frameSize * channels (self m) * 2 = Buffer_Length v
  /\ c = ReturnBuffer (outOpus (self m2)) r
  /\ (exists n, returned_length c = Some n /\ n = r
                /\ 0 < n <= maxPacketSize)
  /\ (r <= Z.of_nat (length (outOpus (self m))) ->
      returned_bytes c = Some written).
Proof.
  intros Hlib Ha Hv m1 Hmax Hch Hmod Hlen frameSize Hn Hr c m2.
  set (ch := channels (self m)) in *.
  assert (Hsz : CInt.to_size_t ch = ch) by (apply to_size_t_id; int_range).
  assert (Hpos : 0 <= Buffer_Length v) by (destruct v; cbn; lia).
  assert (Hdiv : Buffer_Length v / 2 / CInt.to_size_t ch = frameSize).
  { subst frameSize. rewrite Hsz, Z.div_div by lia. f_equal. lia. }
  assert (Hexact : frameSize * ch * 2 = Buffer_Length v).
  { subst frameSize. rewrite <- Z.mul_assoc, Z.mul_comm.
    symmetry. apply Z.div_exact; lia. }
  assert (Hq32 : CInt.to_int32 frameSize = frameSize).
  { apply to_int32_id. assert (0 <= frameSize) by (apply Z.div_pos; lia).
    assert (frameSize * 2 <= Buffer_Length v) by nia.
    int_range. }
  assert (Hch0 : CInt.to_size_t ch <> 0) by lia.
  assert (Hn' : opus_encode (encoder (self m1)) (Buffer_Data v)
                  (CInt.to_int32
                     (Buffer_Length v / 2 / CInt.to_size_t ch))
                  maxPacketSize (native m1) = (w, (r, written)))
    by (rewrite Hdiv, Hq32; exact Hn).
  pose proof (Encode_run m args v maxPacketSize w r written
                Ha Hv Hmax Hch0 Hn') as Hrun.
  cbv zeta in Hrun. fold ch in Hrun. rewrite Hdiv, Hq32 in Hrun.
  destruct (Hlib _ _ _ _ _ _ _ _ Hn) as [Hbad | [Hbound Hwr]]; [lia |].
  assert (Hmaxr : CInt.in_int32 maxPacketSize).
  { eapply OPT_INT_ARG_range; [| exact Hmax].
    unfold MAX_PACKET_SIZE. int_range. }
  subst c m2. rewrite Hrun. fold m1. cbn [fst snd]. unfold NanNewBufferHandle.
  split; [| split; [| split; [| split]]].
  - cbn [calls log flag_overrun on_self on_native]. subst m1.
    now rewrite after_EnsureEncoder_outOpus.
  - exact Hexact.
  - reflexivity.
  - exists r. cbn [returned_length].
    rewrite to_uint32_id by int_range. by repeat split; lia.
  - intros Hfit.
    cbn [returned_bytes self log flag_overrun on_self on_native
           with_outOpus outOpus].
    rewrite store_length. subst m1. rewrite after_EnsureEncoder_outOpus.
    assert (Hle : (0 <=? r) && (r <=? Z.of_nat (length (outOpus (self m))))
                  = true).
    { apply andb_true_iff. split; apply Z.leb_le; lia. }
    rewrite Hle. f_equal.
    replace (Z.to_nat r) with (length written) by lia.
    apply store_prefix. lia.
Qed.

(** The binding's own constant: the default output capacity is the size
    of [outOpus]. *)
Lemma MAX_PACKET_SIZE_value : MAX_PACKET_SIZE = 3828.
Proof. reflexivity. Qed.

(** C6, as the code has it. When [Encode] is called without a second
    argument, the maximum output size passed to the native encoder is
    [MAX_PACKET_SIZE], that is 3 * 1276 = 3828 bytes. *)
Theorem Encode_default_maxPacketSize m args v :
  args !! 0%nat = Some v -> IsObject v = true ->
  args !! 1%nat = None ->
  CInt.to_size_t (channels (self m)) <> 0 ->
  let m2 := (invoke (Encode args) m).1 in
  (encode_capacities (calls m2)).*2
  = (encode_capacities (calls m)).*2 ++ [MAX_PACKET_SIZE]
  /\ MAX_PACKET_SIZE = 3828.
Proof.
  intros Ha Hv Hb Hch m2. split; [| reflexivity]. subst m2.
  set (m1 := after_EnsureEncoder m).
  pose proof (@OPT_INT_ARG_absent Mach 1 args MAX_PACKET_SIZE m1 Hb) as Hmax.
  destruct (opus_encode (encoder (self m1)) (Buffer_Data v)
              (CInt.to_int32 (Buffer_Length v / 2
                              / CInt.to_size_t (channels (self m))))
              MAX_PACKET_SIZE (native m1)) as [w [r written]] eqn:Hn.
  rewrite (Encode_run m args v MAX_PACKET_SIZE w r written Ha Hv Hmax Hch Hn).
  fold m1. cbn [fst calls log flag_overrun on_self on_native].
  unfold encode_capacities. rewrite omap_app, fmap_app. cbn.
  fold (encode_capacities (calls m1)). subst m1.
  now rewrite after_EnsureEncoder_capacities.
Qed.

(** C10. [Encode] passes the caller's [maxPacketSize], whatever its
    value, to the native encoder as the capacity of [outOpus], an array
    of [MAX_PACKET_SIZE] = 3828 bytes: the call is logged with that array
    size and with [max_data_bytes] equal to the argument, also when the
    argument exceeds 3828; and the binding records an overrun exactly
    when the encoder wrote more than 3828 bytes. *)
Theorem Encode_maxPacketSize_unclamped m args v i w r written :
  length (outOpus (self m)) = Z.to_nat MAX_PACKET_SIZE ->
  args !! 0%nat = Some v -> IsObject v = true ->
  args !! 1%nat = Some (VInt32 i) -> CInt.in_int32 i ->
  CInt.to_size_t (channels (self m)) <> 0 ->
  let m1 := after_EnsureEncoder m in
  let frameSize :=
    CInt.to_int32
      (Buffer_Length v / 2 / CInt.to_size_t (channels (self m))) in
  opus_encode (encoder (self m1)) (Buffer_Data v) frameSize i (native m1)
    = (w, (r, written)) ->
  let m2 := (invoke (Encode args) m).1 in
  calls m2
  = calls m1 ++ [Call_encode (encoder (self m1)) (Buffer_Data v) frameSize
                   3828 i]
  /\ encode_capacities (calls m2)
     = encode_capacities (calls m) ++ [(3828, i)]
  /\ overrun m2 = overrun m || (3828 <? Z.of_nat (length written))
  /\ length (outOpus (self m2)) = Z.to_nat MAX_PACKET_SIZE.
Proof.
  intros Hcap Ha Hv Hb Hi Hch m1 frameSize Hn m2. subst m2.
  pose proof (@OPT_INT_ARG_int Mach 1 args MAX_PACKET_SIZE i m1 Hb) as Hmax.
  rewrite (to_int32_id i Hi) in Hmax.
  rewrite (Encode_run m args v i w r written Ha Hv Hmax Hch Hn).
  fold m1. cbn [fst calls log flag_overrun on_self on_native overrun self
                  with_outOpus outOpus].
  assert (Hc1 : Z.of_nat (length (outOpus (self m1))) = 3828).
  { subst m1. rewrite after_EnsureEncoder_outOpus, Hcap. reflexivity. }
  rewrite Hc1. split; [| split; [| split]].
  - reflexivity.
  - unfold encode_capacities. rewrite omap_app. cbn.
    fold (encode_capacities (calls m1)). subst m1.
    now rewrite after_EnsureEncoder_capacities.
  - rewrite store_overrun. subst m1.
    rewrite after_EnsureEncoder_overrun, after_EnsureEncoder_outOpus, Hcap.
    f_equal.
    destruct (Z.ltb_spec 3828 (Z.of_nat (length written)));
      [apply Nat.ltb_lt | apply Nat.ltb_ge]; unfold MAX_PACKET_SIZE; lia.
  - rewrite store_length. subst m1.
    now rewrite after_EnsureEncoder_outOpus.
Qed.

(** ** Construction *)

Lemma OPT_INT_ARG_state {St} (I : nat) args (DEFAULT : Z) (st st' : St) x :
  OPT_INT_ARG I args DEFAULT st = (st', x) -> st' = st.
Proof.
  unfold OPT_INT_ARG. destruct (args !! I) as [v|]; [| now intros [= <- _]].
  destruct (IsInt32 v); now intros [= <- _].
Qed.

Lemma OpusEncoder_ctor_fields rate0 channels0 application0 obj :
  OpusEncoder_ctor rate0 channels0 application0 = Some obj ->
  rate obj = rate0 /\ channels obj = channels0
  /\ application obj = application0
  /\ encoder obj = None /\ decoder obj = None
  /\ length (outOpus obj) = Z.to_nat MAX_PACKET_SIZE.
Proof.
  unfold OpusEncoder_ctor.
  destruct (_ <? 0); [discriminate |]. intros [= <-].
  repeat split; apply length_replicate.
Qed.

(** An object that [New] has wrapped came out of the constructor, with
    the three values the argument macros bound. *)
Lemma New_wraps args obj :
  (invoke (New true args) None).1 = Some obj ->
  exists rate0 channels0 application0,
    OPT_INT_ARG 0 args 48000 (None : option OpusEncoder)
      = (None, inr rate0)
    /\ OPT_INT_ARG 1 args 1 (None : option OpusEncoder)
       = (None, inr channels0)
    /\ OPT_INT_ARG 2 args OPUS_APPLICATION_AUDIO (None : option OpusEncoder)
       = (None, inr application0)
    /\ OpusEncoder_ctor rate0 channels0 application0 = Some obj.
Proof.
  unfold invoke, New. cbn [negb]. unfold mbind, M_bind.
  destruct (OPT_INT_ARG 0 args 48000 None) as [s0 [k0 | r0]] eqn:E0;
    pose proof (OPT_INT_ARG_state _ _ _ _ _ _ E0) as ->; [discriminate |].
  destruct (OPT_INT_ARG 1 args 1 None) as [s1 [k1 | c0]] eqn:E1;
    pose proof (OPT_INT_ARG_state _ _ _ _ _ _ E1) as ->; [discriminate |].
  destruct (OPT_INT_ARG 2 args OPUS_APPLICATION_AUDIO None)
    as [s2 [k2 | a0]] eqn:E2;
    pose proof (OPT_INT_ARG_state _ _ _ _ _ _ E2) as ->; [discriminate |].
  destruct (OpusEncoder_ctor r0 c0 a0) as [o |] eqn:Ec;
    unfold complete, modify, mret, M_ret; cbn [fst]; [| discriminate].
  intros [= <-]. by exists r0, c0, a0.
Qed.

(** C7. Construction with no arguments yields an object with sample rate
    48000, channel count 1 and the audio application profile; and in any
    construction, each of the three arguments that is omitted takes that
    default. *)
Theorem New_defaults :
  (exists obj,
     invoke (New true []) None = (Some obj, ReturnThis)
     /\ rate obj = 48000 /\ channels obj = 1
     /\ application obj = OPUS_APPLICATION_AUDIO)
  /\ (forall args obj,
        (invoke (New true args) None).1 = Some obj ->
        (args !! 0%nat = None -> rate obj = 48000)
        /\ (args !! 1%nat = None -> channels obj = 1)
        /\ (args !! 2%nat = None ->
            application obj = OPUS_APPLICATION_AUDIO)).
Proof.
  split.
  - eexists. split; [reflexivity |]. by repeat split.
  - intros args obj Hnew.
    destruct (New_wraps args obj Hnew)
      as (r0 & c0 & a0 & E0 & E1 & E2 & Hc).
    destruct (OpusEncoder_ctor_fields _ _ _ _ Hc) as (-> & -> & -> & _).
    repeat split; intros Hnone.
    + rewrite (OPT_INT_ARG_absent _ _ _ _ Hnone) in E0. congruence.
    + rewrite (OPT_INT_ARG_absent _ _ _ _ Hnone) in E1. congruence.
    + rewrite (OPT_INT_ARG_absent _ _ _ _ Hnone) in E2. congruence.
Qed.

(** ** The life of the two handles *)

Implicit Type P : Mach -> Prop.

Lemma invoke_state {St} (c : M St Completion) st : (invoke c st).1 = (c st).1.
Proof. unfold invoke. now destruct (c st) as [st' [k | k]]. Qed.

Lemma stable_bind {A B} P (c : M Mach A) (f : A -> M Mach B) :
  stable P c -> (forall a, stable P (f a)) -> stable P (c ≫= f).
Proof.
  intros Hc Hf m HP. specialize (Hc m HP).
  unfold mbind, M_bind. destruct (c m) as [m' [k | a]]; [exact Hc |].
  now apply Hf.
Qed.

Lemma stable_unchanged {A X} (f : Mach -> X) (c : M Mach A) :
  (forall x, stable (fun m => f m = x) c) -> forall m, f (c m).1 = f m.
Proof. intros H m. now apply (H (f m) m). Qed.

Lemma stable_ret {A} P (a : A) : stable P (mret a).
Proof. now intros m HP. Qed.

Lemma stable_complete {A} P k : stable P (@complete Mach A k).
Proof. now intros m HP. Qed.

Lemma stable_gets {A} P (f : Mach -> A) : stable P (gets f).
Proof. now intros m HP. Qed.

Lemma stable_REQ_OBJ_ARG P I args : stable P (REQ_OBJ_ARG I args).
Proof.
  intros m HP. unfold REQ_OBJ_ARG.
  destruct (args !! I) as [v |]; [destruct (IsObject v) |]; exact HP.
Qed.

Lemma stable_REQ_INT_ARG P I args : stable P (REQ_INT_ARG I args).
Proof.
  intros m HP. unfold REQ_INT_ARG.
  destruct (args !! I) as [v |]; [destruct (IsInt32 v) |]; exact HP.
Qed.

Lemma stable_OPT_INT_ARG P I args D : stable P (OPT_INT_ARG I args D).
Proof.
  intros m HP. unfold OPT_INT_ARG.
  destruct (args !! I) as [v |]; [destruct (IsInt32 v) |]; exact HP.
Qed.

Lemma stable_size_t_div P a b : stable P (size_t_div a b).
Proof. intros m HP. unfold size_t_div. now destruct (_ =? 0). Qed.

Lemma stable_call_encode P st pcm frame_size max_data_bytes :
  about_handles P -> stable P (call_encode st pcm frame_size max_data_bytes).
Proof.
  intros HA m HP. unfold call_encode.
  destruct (opus_encode _ _ _ _ _) as [w [r written]].
  destruct (store _ _) as [out over]. now apply (HA m).
Qed.

Lemma stable_call_decode P st data len frame_size decode_fec :
  about_handles P ->
  stable P (call_decode st data len frame_size decode_fec).
Proof.
  intros HA m HP. unfold call_decode.
  destruct (opus_decode _ _ _ _ _ _) as [w [r written]].
  destruct (store _ _) as [out over]. now apply (HA m).
Qed.

Lemma stable_call_set_bitrate P st x :
  about_handles P -> stable P (call_set_bitrate st x).
Proof.
  intros HA m HP. unfold call_set_bitrate.
  destruct (opus_encoder_ctl_set_bitrate _ _ _) as [w r]. now apply (HA m).
Qed.

Lemma stable_call_get_bitrate P st :
  about_handles P -> stable P (call_get_bitrate st).
Proof.
  intros HA m HP. unfold call_get_bitrate.
  destruct (opus_encoder_ctl_get_bitrate _ _) as [w r]. now apply (HA m).
Qed.

Create HintDb stable discriminated.
#[local] Hint Resolve stable_ret stable_complete stable_gets
  stable_REQ_OBJ_ARG stable_REQ_INT_ARG stable_OPT_INT_ARG stable_size_t_div
  stable_call_encode stable_call_decode stable_call_set_bitrate
  stable_call_get_bitrate : stable.

Ltac stable_steps :=
  repeat (apply stable_bind; [solve [auto with stable] | intros ?]);
  auto with stable.

Lemma stable_Encode P args :
  about_handles P -> stable P EnsureEncoder -> stable P (Encode args).
Proof. intros HA HE. unfold Encode. stable_steps. Qed.

Lemma stable_Decode P args :
  about_handles P -> stable P EnsureDecoder -> stable P (Decode args).
Proof.
  intros HA HE. unfold Decode. stable_steps.
  destruct (_ <? 0); stable_steps.
Qed.

Lemma stable_SetBitrate P args :
  about_handles P -> stable P EnsureEncoder -> stable P (SetBitrate args).
Proof. intros HA HE. unfold SetBitrate. stable_steps. Qed.

Lemma stable_GetBitrate P args :
  about_handles P -> stable P EnsureEncoder -> stable P (GetBitrate args).
Proof.
  intros HA HE. unfold GetBitrate. stable_steps.
  destruct a1 as [ret [b |]]; auto with stable.
Qed.

(** The four properties of the handles that the methods keep. *)
Lemma about_encoder e : about_handles (fun m => encoder (self m) = e).
Proof. intros m m' He _ HP. congruence. Qed.

Lemma about_decoder d : about_handles (fun m => decoder (self m) = d).
Proof. intros m m' _ Hd HP. congruence. Qed.

Lemma EnsureEncoder_keeps_encoder h :
  stable (fun m => encoder (self m) = Some h) EnsureEncoder.
Proof.
  intros m HP. fold (after_EnsureEncoder m).
  now rewrite (after_EnsureEncoder_present m h HP).
Qed.

Lemma EnsureDecoder_keeps_decoder h :
  stable (fun m => decoder (self m) = Some h) EnsureDecoder.
Proof.
  intros m HP. fold (after_EnsureDecoder m).
  now rewrite (after_EnsureDecoder_present m h HP).
Qed.

Lemma EnsureEncoder_leaves_decoder d :
  stable (fun m => decoder (self m) = d) EnsureEncoder.
Proof.
  intros m HP. fold (after_EnsureEncoder m).
  destruct (encoder (self m)) eqn:E.
  - by erewrite after_EnsureEncoder_present.
  - destruct (opus_encoder_create (rate (self m)) (channels (self m))
                (application (self m)) (native m)) as [w [p e]] eqn:Hc.
    by erewrite after_EnsureEncoder_absent.
Qed.

Lemma EnsureDecoder_leaves_encoder e :
  stable (fun m => encoder (self m) = e) EnsureDecoder.
Proof.
  intros m HP. fold (after_EnsureDecoder m).
  destruct (decoder (self m)) eqn:E.
  - by erewrite after_EnsureDecoder_present.
  - destruct (opus_decoder_create (rate (self m)) (channels (self m))
                (native m)) as [w [p e0]] eqn:Hc.
    by erewrite after_EnsureDecoder_absent.
Qed.

(** One call never takes a handle away. *)
Lemma step_keeps_encoder m op h :
  encoder (self m) = Some h -> encoder (self (step m op)) = Some h.
Proof.
  intros HP. unfold step. rewrite invoke_state. revert m HP.
  change (stable (fun m => encoder (self m) = Some h) (method op)).
  destruct op; cbn [method];
    [apply stable_Encode | apply stable_Decode
     | apply stable_SetBitrate | apply stable_GetBitrate];
    auto using about_encoder, EnsureEncoder_keeps_encoder,
      EnsureDecoder_leaves_encoder.
Qed.

Lemma step_keeps_decoder m op h :
  decoder (self m) = Some h -> decoder (self (step m op)) = Some h.
Proof.
  intros HP. unfold step. rewrite invoke_state. revert m HP.
  change (stable (fun m => decoder (self m) = Some h) (method op)).
  destruct op; cbn [method];
    [apply stable_Encode | apply stable_Decode
     | apply stable_SetBitrate | apply stable_GetBitrate];
    auto using about_decoder, EnsureDecoder_keeps_decoder,
      EnsureEncoder_leaves_decoder.
Qed.

(** Only [Decode] touches the decoder, and it does not touch the
    encoder. *)
Lemma step_leaves_decoder m op :
  is_decode op = false -> decoder (self (step m op)) = decoder (self m).
Proof.
  intros Hop. unfold step. rewrite invoke_state.
  apply (stable_unchanged (fun m => decoder (self m))). intros d.
  destruct op; try discriminate; cbn [method];
    [apply stable_Encode | apply stable_SetBitrate | apply stable_GetBitrate];
    auto using about_decoder, EnsureEncoder_leaves_decoder.
Qed.

Lemma step_leaves_encoder m op :
  is_decode op = true -> encoder (self (step m op)) = encoder (self m).
Proof.
  intros Hop. unfold step. rewrite invoke_state.
  apply (stable_unchanged (fun m => encoder (self m))). intros e.
  destruct op; try discriminate; cbn [method].
  apply stable_Decode;
    auto using about_encoder, EnsureDecoder_leaves_encoder.
Qed.

(** A property of the handles that holds once the handle has been looked
    after holds when the method is over. *)
Lemma Encode_after P args m :
  about_handles P -> P (after_EnsureEncoder m) -> P (Encode args m).1.
Proof.
  intros HA HP. destruct (EnsureEncoder_run m) as [e He].
  unfold Encode. rewrite (bind_value _ _ _ _ _ He).
  revert HP. generalize (after_EnsureEncoder m).
  change (stable P
    (pcmBuffer ← REQ_OBJ_ARG 0 args;
     maxPacketSize ← OPT_INT_ARG 1 args MAX_PACKET_SIZE;
     this ← gets self;
     q ← size_t_div (Buffer_Length pcmBuffer / 2) (channels this);
     compressedLength ← call_encode (encoder this) (Buffer_Data pcmBuffer)
                          (CInt.to_int32 q) maxPacketSize;
     this0 ← gets self;
     mret (NanNewBufferHandle (outOpus this0) compressedLength))).
  stable_steps.
Qed.

Lemma GetBitrate_after P args m :
  about_handles P -> P (after_EnsureEncoder m) -> P (GetBitrate args m).1.
Proof.
  intros HA HP. destruct (EnsureEncoder_run m) as [e He].
  unfold GetBitrate. rewrite (bind_value _ _ _ _ _ He).
  revert HP. generalize (after_EnsureEncoder m).
  change (stable P
    (this ← gets self;
     '(_, bitrate) ← call_get_bitrate (encoder this);
     match bitrate with
     | Some b => mret (ReturnInteger b)
     | None => mret ReturnIndeterminate
     end)).
  stable_steps. destruct a0 as [ret [b |]]; auto with stable.
Qed.

Lemma SetBitrate_after P args v m :
  args !! 0%nat = Some v -> IsInt32 v = true ->
  about_handles P -> P (after_EnsureEncoder m) -> P (SetBitrate args m).1.
Proof.
  intros Ha Hv HA HP. destruct (EnsureEncoder_run m) as [e He].
  unfold SetBitrate, REQ_INT_ARG. rewrite Ha, Hv.
  rewrite (bind_value (mret (Int32Value v)) _ m m _) by reflexivity.
  rewrite (bind_value _ _ _ _ _ He).
  revert HP. generalize (after_EnsureEncoder m).
  change (stable P
    (this ← gets self;
     call_set_bitrate (encoder this) (Int32Value v);;
     mret ReturnUndefined)).
  stable_steps.
Qed.

Lemma Decode_after P args v m :
  args !! 0%nat = Some v -> IsObject v = true ->
  about_handles P -> P (after_EnsureDecoder m) -> P (Decode args m).1.
Proof.
  intros Ha Hv HA HP. destruct (EnsureDecoder_run m) as [e He].
  unfold Decode, REQ_OBJ_ARG. rewrite Ha, Hv.
  rewrite (bind_value (mret v) _ m m _) by reflexivity.
  rewrite (bind_value _ _ _ _ _ He).
  revert HP. generalize (after_EnsureDecoder m).
  change (stable P
    (this ← gets self;
     decodedSamples ← call_decode (decoder this) (Buffer_Data v)
                        (CInt.to_int32 (Buffer_Length v)) MAX_FRAME_SIZE 0;
     if decodedSamples <? 0
     then mret (ThrowTypeError (getDecodeError decodedSamples))
     else this0 ← gets self;
          mret (NanNewBufferHandle (outPcm this0)
                  (CInt.to_int32 (decodedSamples * 2 * channels this0))))).
  stable_steps. destruct (_ <? 0); stable_steps.
Qed.

Lemma step_creates_encoder m op w h e :
  encoder (self m) = None ->
  reaches_EnsureEncoder op = true ->
  opus_encoder_create (rate (self m)) (channels (self m))
    (application (self m)) (native m) = (w, (Some h, e)) ->
  encoder (self (step m op)) = Some h.
Proof.
  intros Hnone Hop Hc. unfold step. rewrite invoke_state.
  assert (H1 : encoder (self (after_EnsureEncoder m)) = Some h)
    by now rewrite (after_EnsureEncoder_absent m w (Some h) e Hnone Hc).
  destruct op as [args | args | args | args]; cbn [method];
    cbn [reaches_EnsureEncoder] in Hop; try discriminate.
  - now apply (Encode_after _ args m (about_encoder (Some h))).
  - destruct (args !! 0%nat) as [v |] eqn:Ha; [| discriminate].
    now apply (SetBitrate_after _ args v m Ha Hop (about_encoder (Some h))).
  - now apply (GetBitrate_after _ args m (about_encoder (Some h))).
Qed.

Lemma step_creates_decoder m op w h e :
  decoder (self m) = None ->
  reaches_EnsureDecoder op = true ->
  opus_decoder_create (rate (self m)) (channels (self m)) (native m)
    = (w, (Some h, e)) ->
  decoder (self (step m op)) = Some h.
Proof.
  intros Hnone Hop Hc. unfold step. rewrite invoke_state.
  assert (H1 : decoder (self (after_EnsureDecoder m)) = Some h)
    by now rewrite (after_EnsureDecoder_absent m w (Some h) e Hnone Hc).
  destruct op as [args | args | args | args]; cbn [method];
    cbn [reaches_EnsureDecoder] in Hop; try discriminate.
  destruct (args !! 0%nat) as [v |] eqn:Ha; [| discriminate].
  now apply (Decode_after _ args v m Ha Hop (about_decoder (Some h))).
Qed.

Lemma run_keeps_encoder ops m h :
  encoder (self m) = Some h -> encoder (self (run ops m)) = Some h.
Proof.
  revert m. induction ops as [| op ops IH]; intros m H; [exact H |].
  cbn [run foldl]. apply IH. now apply step_keeps_encoder.
Qed.

Lemma run_keeps_decoder ops m h :
  decoder (self m) = Some h -> decoder (self (run ops m)) = Some h.
Proof.
  revert m. induction ops as [| op ops IH]; intros m H; [exact H |].
  cbn [run foldl]. apply IH. now apply step_keeps_decoder.
Qed.

(** C9. A constructed object has neither handle.  A call that reaches
    [EnsureEncoder] ([Encode], [GetBitrate], [SetBitrate] past its argument
    check) on an object without encoder leaves it with the handle native
    creation returned, and likewise [Decode] for the decoder; calls other
    than [Decode] leave the decoder as it is and [Decode] leaves the
    encoder as it is; and through any sequence of calls, whatever their
    arguments and however each completes, a handle that exists stays the
    same handle.  Only the destructor resets them. *)
Theorem handles_created_once_and_kept :
  (forall args obj,
     (invoke (New true args) None).1 = Some obj ->
     encoder obj = None /\ decoder obj = None)
  /\ (forall m op w h e,
        encoder (self m) = None ->
        reaches_EnsureEncoder op = true ->
        opus_encoder_create (rate (self m)) (channels (self m))
          (application (self m)) (native m) = (w, (Some h, e)) ->
        encoder (self (step m op)) = Some h)
  /\ (forall m op w h e,
        decoder (self m) = None ->
        reaches_EnsureDecoder op = true ->
        opus_decoder_create (rate (self m)) (channels (self m)) (native m)
          = (w, (Some h, e)) ->
        decoder (self (step m op)) = Some h)
  /\ (forall m op,
        is_decode op = false ->
        decoder (self (step m op)) = decoder (self m))
  /\ (forall m op,
        is_decode op = true ->
        encoder (self (step m op)) = encoder (self m))
  /\ (forall ops m h,
        encoder (self m) = Some h -> encoder (self (run ops m)) = Some h)
  /\ (forall ops m h,
        decoder (self m) = Some h -> decoder (self (run ops m)) = Some h)
  /\ (forall m,
        encoder (self (destroy m)) = None
        /\ decoder (self (destroy m)) = None).
Proof.
  split; [| split; [| split; [| split; [| split; [| split; [| split]]]]]].
  - intros args obj Hnew.
    destruct (New_wraps args obj Hnew) as (r0 & c0 & a0 & _ & _ & _ & Hc).
    destruct (OpusEncoder_ctor_fields _ _ _ _ Hc) as (_ & _ & _ & H1 & H2 & _).
    now split.
  - apply step_creates_encoder.
  - apply step_creates_decoder.
  - apply step_leaves_decoder.
  - apply step_leaves_encoder.
  - apply run_keeps_encoder.
  - apply run_keeps_decoder.
  - intros m. unfold destroy. now split.
Qed.

(** ** What any sequence of calls keeps *)

Lemma evolves_refl m : evolves m m.
Proof.
  split; try done. exists []. split; [by rewrite app_nil_r | constructor].
Qed.

Lemma permitted_earlier m0 m c : evolves m0 m -> permitted m c -> permitted m0 c.
Proof.
  intros E. destruct c; cbn [permitted]; try done.
  - intros (Hn & -> & -> & ->). repeat split; try apply E.
    destruct (encoder (self m0)) as [h |] eqn:Eh; [| done].
    rewrite (ev_encoder _ _ E h Eh) in Hn. discriminate.
  - intros (Hn & -> & ->). repeat split; try apply E.
    destruct (decoder (self m0)) as [h |] eqn:Eh; [| done].
    rewrite (ev_decoder _ _ E h Eh) in Hn. discriminate.
  - intros ->. now rewrite (ev_outOpus _ _ E).
  - intros (-> & -> & ->). now rewrite (ev_outPcm _ _ E).
Qed.

Lemma evolves_trans m0 m m' : evolves m0 m -> evolves m m' -> evolves m0 m'.
Proof.
  intros E1 E2. split.
  - rewrite (ev_rate _ _ E2). apply E1.
  - rewrite (ev_channels _ _ E2). apply E1.
  - rewrite (ev_application _ _ E2). apply E1.
  - rewrite (ev_outOpus _ _ E2). apply E1.
  - rewrite (ev_outPcm _ _ E2). apply E1.
  - intros h Hh. apply E2. now apply E1.
  - intros h Hh. apply E2. now apply E1.
  - intros Ho. apply E2. now apply E1.
  - destruct (ev_calls _ _ E1) as (l1 & H1 & F1).
    destruct (ev_calls _ _ E2) as (l2 & H2 & F2).
    exists (l1 ++ l2). split; [by rewrite H2, H1, app_assoc |].
    apply Forall_app. split; [exact F1 |].
    eapply Forall_impl; [exact F2 |]. intros c. now apply permitted_earlier.
Qed.

Lemma stable_evolves {A} (c : M Mach A) m0 :
  (forall m, evolves m (c m).1) -> stable (evolves m0) c.
Proof. intros H m E. eapply evolves_trans; [exact E | apply H]. Qed.

(** One native call, one entry in the log. *)
Lemma evolves_logged m w f b c :
  permitted m c ->
  (forall s, rate (f s) = rate s /\ channels (f s) = channels s
             /\ application (f s) = application s
             /\ encoder (f s) = encoder s /\ decoder (f s) = decoder s) ->
  length (outOpus (f (self m))) = length (outOpus (self m)) ->
  length (outPcm (f (self m))) = length (outPcm (self m)) ->
  evolves m (log c (flag_overrun b (on_self f (on_native w m)))).
Proof.
  intros Hc Hf Ho Hp. destruct (Hf (self m)) as (Hr & Hch & Ha & He & Hd).
  split; cbn [self log flag_overrun on_self on_native calls overrun];
    try done.
  - intros h Hh. now rewrite He.
  - intros h Hh. now rewrite Hd.
  - intros ->. reflexivity.
  - exists [c]. split; [reflexivity |]. now constructor.
Qed.

Lemma call_encode_evolves st pcm frame_size max_data_bytes m :
  evolves m (call_encode st pcm frame_size max_data_bytes m).1.
Proof.
  unfold call_encode.
  destruct (opus_encode _ _ _ _ _) as [w [r written]].
  pose proof (store_length (outOpus (self m)) written) as Hl.
  destruct (store _ _) as [out over]. cbn [fst] in *.
  now apply evolves_logged.
Qed.

Lemma call_decode_evolves st data len m :
  evolves m (call_decode st data len MAX_FRAME_SIZE 0 m).1.
Proof.
  unfold call_decode.
  destruct (opus_decode _ _ _ _ _ _) as [w [r written]].
  pose proof (store_length (outPcm (self m)) written) as Hl.
  destruct (store _ _) as [out over]. cbn [fst] in *.
  now apply evolves_logged.
Qed.

Lemma call_set_bitrate_evolves st x m :
  evolves m (call_set_bitrate st x m).1.
Proof.
  unfold call_set_bitrate.
  destruct (opus_encoder_ctl_set_bitrate _ _ _) as [w r]. cbn [fst].
  assert (E : evolves m
                (log (Call_set_bitrate st x)
                   (flag_overrun false (on_self id (on_native w m)))))
    by now apply evolves_logged.
  destruct E. split; cbn in *; done.
Qed.

Lemma call_get_bitrate_evolves st m :
  evolves m (call_get_bitrate st m).1.
Proof.
  unfold call_get_bitrate.
  destruct (opus_encoder_ctl_get_bitrate _ _) as [w r]. cbn [fst].
  assert (E : evolves m
                (log (Call_get_bitrate st)
                   (flag_overrun false (on_self id (on_native w m)))))
    by now apply evolves_logged.
  destruct E. split; cbn in *; done.
Qed.

Lemma EnsureEncoder_evolves m : evolves m (EnsureEncoder m).1.
Proof.
  fold (after_EnsureEncoder m).
  destruct (encoder (self m)) as [h |] eqn:E.
  - rewrite (after_EnsureEncoder_present m h E). apply evolves_refl.
  - destruct (opus_encoder_create (rate (self m)) (channels (self m))
                (application (self m)) (native m)) as [w [p e]] eqn:Hc.
    rewrite (after_EnsureEncoder_absent m w p e E Hc).
    split; cbn [self log on_self on_native calls overrun with_encoder
                  rate channels application outOpus outPcm encoder decoder];
      try done.
    + intros h Hh. congruence.
    + eexists. split; [reflexivity |]. constructor; [| constructor].
      cbn. done.
Qed.

Lemma EnsureDecoder_evolves m : evolves m (EnsureDecoder m).1.
Proof.
  fold (after_EnsureDecoder m).
  destruct (decoder (self m)) as [h |] eqn:E.
  - rewrite (after_EnsureDecoder_present m h E). apply evolves_refl.
  - destruct (opus_decoder_create (rate (self m)) (channels (self m))
                (native m)) as [w [p e]] eqn:Hc.
    rewrite (after_EnsureDecoder_absent m w p e E Hc).
    split; cbn [self log on_self on_native calls overrun with_decoder
                  rate channels application outOpus outPcm encoder decoder];
      try done.
    + intros h Hh. congruence.
    + eexists. split; [reflexivity |]. constructor; [| constructor].
      cbn. done.
Qed.

#[local] Hint Resolve stable_evolves call_encode_evolves call_decode_evolves
  call_set_bitrate_evolves call_get_bitrate_evolves EnsureEncoder_evolves
  EnsureDecoder_evolves : stable.

Lemma method_evolves op m0 : stable (evolves m0) (method op).
Proof.
  destruct op as [args | args | args | args]; cbn [method].
  - unfold Encode. stable_steps.
  - unfold Decode. stable_steps. destruct (_ <? 0); stable_steps.
  - unfold SetBitrate. stable_steps.
  - unfold GetBitrate. stable_steps.
    destruct a1 as [ret [b |]]; auto with stable.
Qed.

Lemma step_evolves m op : evolves m (step m op).
Proof.
  unfold step. rewrite invoke_state.
  apply (method_evolves op m m). apply evolves_refl.
Qed.

Lemma run_evolves ops m : evolves m (run ops m).
Proof.
  revert m. induction ops as [| op ops IH]; intros m; [apply evolves_refl |].
  cbn [run foldl]. eapply evolves_trans; [apply step_evolves | apply IH].
Qed.

(** X1. No sequence of method calls, whatever the arguments and however
    each call completes, changes the sample rate, the channel count or the
    application profile of the object. *)
Theorem run_keeps_configuration ops m :
  rate (self (run ops m)) = rate (self m)
  /\ channels (self (run ops m)) = channels (self m)
  /\ application (self (run ops m)) = application (self m).
Proof.
  pose proof (run_evolves ops m) as E.
  split; [| split]; apply E.
Qed.

Lemma outPcm_call_encode P st pcm frame_size max_data_bytes :
  about_outPcm P -> stable P (call_encode st pcm frame_size max_data_bytes).
Proof.
  intros HA m HP. unfold call_encode.
  destruct (opus_encode _ _ _ _ _) as [w [r written]].
  destruct (store _ _) as [out over]. now apply (HA m).
Qed.

Lemma outOpus_call_decode P st data len frame_size decode_fec :
  about_outOpus P ->
  stable P (call_decode st data len frame_size decode_fec).
Proof.
  intros HA m HP. unfold call_decode.
  destruct (opus_decode _ _ _ _ _ _) as [w [r written]].
  destruct (store _ _) as [out over]. now apply (HA m).
Qed.

Lemma arrays_call_set_bitrate P st x :
  about_outPcm P \/ about_outOpus P -> stable P (call_set_bitrate st x).
Proof.
  intros HA m HP. unfold call_set_bitrate.
  destruct (opus_encoder_ctl_set_bitrate _ _ _) as [w r].
  destruct HA as [HA | HA]; now apply (HA m).
Qed.

Lemma arrays_call_get_bitrate P st :
  about_outPcm P \/ about_outOpus P -> stable P (call_get_bitrate st).
Proof.
  intros HA m HP. unfold call_get_bitrate.
  destruct (opus_encoder_ctl_get_bitrate _ _) as [w r].
  destruct HA as [HA | HA]; now apply (HA m).
Qed.

Lemma arrays_EnsureEncoder P :
  about_outPcm P \/ about_outOpus P -> stable P EnsureEncoder.
Proof.
  intros HA m HP. fold (after_EnsureEncoder m).
  destruct (encoder (self m)) as [h |] eqn:E.
  - now rewrite (after_EnsureEncoder_present m h E).
  - destruct (opus_encoder_create (rate (self m)) (channels (self m))
                (application (self m)) (native m)) as [w [p e]] eqn:Hc.
    rewrite (after_EnsureEncoder_absent m w p e E Hc).
    destruct HA as [HA | HA]; now apply (HA m).
Qed.

Lemma outOpus_EnsureDecoder P : about_outOpus P -> stable P EnsureDecoder.
Proof.
  intros HA m HP. fold (after_EnsureDecoder m).
  destruct (decoder (self m)) as [h |] eqn:E.
  - now rewrite (after_EnsureDecoder_present m h E).
  - destruct (opus_decoder_create (rate (self m)) (channels (self m))
                (native m)) as [w [p e]] eqn:Hc.
    rewrite (after_EnsureDecoder_absent m w p e E Hc). now apply (HA m).
Qed.

#[local] Hint Resolve outPcm_call_encode outOpus_call_decode
  arrays_call_set_bitrate arrays_call_get_bitrate arrays_EnsureEncoder
  outOpus_EnsureDecoder : stable.

(** [outPcm] is written by [Decode] only, [outOpus] by [Encode] only. *)
Lemma step_keeps_outPcm m op :
  is_decode op = false -> outPcm (self (step m op)) = outPcm (self m).
Proof.
  intros Hop. unfold step. rewrite invoke_state.
  apply (stable_unchanged (fun m => outPcm (self m))). intros c.
  assert (HA : about_outPcm (fun m => outPcm (self m) = c))
    by (intros m1 m2 E H; congruence).
  destruct op as [args | args | args | args]; try discriminate;
    cbn [method].
  - unfold Encode. stable_steps.
  - unfold SetBitrate. stable_steps.
  - unfold GetBitrate. stable_steps.
    destruct a1 as [ret [b |]]; auto with stable.
Qed.

Lemma step_keeps_outOpus m op :
  is_encode op = false -> outOpus (self (step m op)) = outOpus (self m).
Proof.
  intros Hop. unfold step. rewrite invoke_state.
  apply (stable_unchanged (fun m => outOpus (self m))). intros c.
  assert (HA : about_outOpus (fun m => outOpus (self m) = c))
    by (intros m1 m2 E H; congruence).
  destruct op as [args | args | args | args]; try discriminate;
    cbn [method].
  - unfold Decode. stable_steps. destruct (_ <? 0); stable_steps.
  - unfold SetBitrate. stable_steps.
  - unfold GetBitrate. stable_steps.
    destruct a1 as [ret [b |]]; auto with stable.
Qed.

(** X2. Through a sequence of method calls in which no native call has
    written past an array, the two output arrays keep their size, the
    contents of [outOpus] are changed by [Encode] calls only and the
    contents of [outPcm] by [Decode] calls only: a sequence without
    [Encode] leaves [outOpus] byte for byte as it was, one without
    [Decode] leaves [outPcm] so. *)
Theorem run_keeps_arrays_of_other_methods ops m :
  overrun (run ops m) = false ->
  length (outOpus (self (run ops m))) = length (outOpus (self m))
  /\ length (outPcm (self (run ops m))) = length (outPcm (self m))
  /\ (Forall (fun op => is_encode op = false) ops ->
      outOpus (self (run ops m)) = outOpus (self m))
  /\ (Forall (fun op => is_decode op = false) ops ->
      outPcm (self (run ops m)) = outPcm (self m)).
Proof.
  intros _. pose proof (run_evolves ops m) as E.
  split; [apply E |]. split; [apply E |]. split.
  - intros Hops. revert m E.
    induction Hops as [| op ops Hop Hops IH]; intros m _; [reflexivity |].
    cbn [run foldl]. fold (run ops (step m op)).
    rewrite (IH _ (run_evolves ops (step m op))).
    now apply step_keeps_outOpus.
  - intros Hops. revert m E.
    induction Hops as [| op ops Hop Hops IH]; intros m _; [reflexivity |].
    cbn [run foldl]. fold (run ops (step m op)).
    rewrite (IH _ (run_evolves ops (step m op))).
    now apply step_keeps_outPcm.
Qed.

(** X3. The native calls of a sequence of method calls are appended to
    those made before, and none of them destroys an encoder or a decoder:
    handles are released by the destructor only. *)
Theorem run_never_destroys ops m :
  exists l,
    calls (run ops m) = calls m ++ l
    /\ Forall (fun c => is_destroy c = false) l.
Proof.
  destruct (ev_calls _ _ (run_evolves ops m)) as (l & Hl & F).
  exists l. split; [exact Hl |].
  eapply Forall_impl; [exact F |]. intros c. now destruct c.
Qed.

(** X4. In a sequence of method calls, native creation is only ever asked
    for a handle the object did not have at the start, and always with
    the object's own configuration: an object that has its encoder
    (decoder) never creates another. *)
Theorem run_creates_only_absent_handles ops m :
  exists l,
    calls (run ops m) = calls m ++ l
    /\ (encoder (self m) <> None ->
        Forall (fun c => is_encoder_create c = false) l)
    /\ (decoder (self m) <> None ->
        Forall (fun c => is_decoder_create c = false) l)
    /\ Forall (fun c =>
         match c with
         | Call_encoder_create r ch a =>
             r = rate (self m) /\ ch = channels (self m)
             /\ a = application (self m)
         | Call_decoder_create r ch =>
             r = rate (self m) /\ ch = channels (self m)
         | _ => True
         end) l.
Proof.
  destruct (ev_calls _ _ (run_evolves ops m)) as (l & Hl & F).
  exists l. split; [exact Hl |]. repeat split.
  - intros He. eapply Forall_impl; [exact F |].
    intros c. destruct c; cbn; try done. now intros [Hn _].
  - intros Hd. eapply Forall_impl; [exact F |].
    intros c. destruct c; cbn; try done. now intros [Hn _].
  - eapply Forall_impl; [exact F |].
    intros c. destruct c; cbn; try done; tauto.
Qed.

(** X5. Every native decode of a sequence of method calls is made with a
    frame capacity of [MAX_FRAME_SIZE] and with error correction off; and
    when no native call of the sequence has written past an array, every
    decode has the whole of [outPcm] as its output and every encode the
    whole of [outOpus]. *)
Theorem run_native_calls_use_fixed_parameters ops m :
  exists l,
    calls (run ops m) = calls m ++ l
    /\ Forall (fun c =>
         match c with
         | Call_decode _ _ _ _ fs fec => fs = MAX_FRAME_SIZE /\ fec = 0
         | _ => True
         end) l
    /\ (overrun (run ops m) = false ->
        Forall (fun c =>
          match c with
          | Call_decode _ _ _ cap _ _ =>
              cap = Z.of_nat (length (outPcm (self m)))
          | Call_encode _ _ _ cap _ =>
              cap = Z.of_nat (length (outOpus (self m)))
          | _ => True
          end) l).
Proof.
  destruct (ev_calls _ _ (run_evolves ops m)) as (l & Hl & F).
  exists l. split; [exact Hl |]. split; [| intros _].
  - eapply Forall_impl; [exact F |].
    intros c. destruct c; cbn; try done. tauto.
  - eapply Forall_impl; [exact F |].
    intros c. destruct c; cbn; try done. tauto.
Qed.

(** X6. The destructor destroys exactly the handles that exist, the
    encoder first, each once, and leaves the object without handles;
    running it again makes no native call. *)
Theorem destroy_releases_existing_handles m :
  calls (destroy m)
  = calls m ++ destroy_calls (encoder (self m)) (decoder (self m))
  /\ encoder (self (destroy m)) = None
  /\ decoder (self (destroy m)) = None
  /\ calls (destroy (destroy m)) = calls (destroy m).
Proof.
  unfold destroy, destroy_calls.
  destruct (encoder (self m)) as [e |] eqn:He;
    cbn [self log on_native on_self calls decoder];
    destruct (decoder (self m)) as [d |] eqn:Hd;
    cbn [self log on_native on_self calls decoder encoder with_encoder
           with_decoder];
    rewrite ?He, ?Hd; cbn [calls log on_native on_self];
    rewrite <- ?app_assoc, ?app_nil_r; done.
Qed.

(** ** Arguments, statuses and faults *)

(** X7. Neither bitrate method reports a native failure: [SetBitrate]
    with an integer argument returns undefined whatever status the
    control call gives back, and [GetBitrate] never throws, whatever its
    arguments. *)
Theorem bitrate_methods_never_report_native_failure m args :
  (forall i,
     args !! 0%nat = Some (VInt32 i) ->
     (invoke (SetBitrate args) m).2 = ReturnUndefined)
  /\ is_throw (invoke (GetBitrate args) m).2 = false.
Proof.
  split.
  - intros i Ha.
    destruct (opus_encoder_ctl_set_bitrate
                (encoder (self (after_EnsureEncoder m)))
                (Int32Value (VInt32 i)) (native (after_EnsureEncoder m)))
      as [w ret] eqn:Hn.
    now rewrite (SetBitrate_run m args i w ret Ha Hn).
  - destruct (opus_encoder_ctl_get_bitrate
                (encoder (self (after_EnsureEncoder m)))
                (native (after_EnsureEncoder m)))
      as [w [ret stored]] eqn:Hn.
    rewrite (GetBitrate_run m args w ret stored Hn).
    now destruct stored.
Qed.

(** X8. [Decode] and [SetBitrate] check their argument before anything
    else: when the first argument is missing or of the wrong kind, the
    call completes with the argument error and the machine is exactly as
    before (no handle created, no native call). *)
Theorem rejected_argument_leaves_machine_untouched m args :
  (from_option IsObject false (args !! 0%nat) = false ->
   invoke (Decode args) m = (m, ThrowArgumentError 0))
  /\ (from_option IsInt32 false (args !! 0%nat) = false ->
      invoke (SetBitrate args) m = (m, ThrowArgumentError 0)).
Proof.
  split; intros H.
  - unfold invoke, Decode, REQ_OBJ_ARG.
    destruct (args !! 0%nat) as [v |]; cbn [from_option] in H;
      [rewrite H |]; reflexivity.
  - unfold invoke, SetBitrate, REQ_INT_ARG.
    destruct (args !! 0%nat) as [v |]; cbn [from_option] in H;
      [rewrite H |]; reflexivity.
Qed.

Lemma Encode_rejected_first m args :
  from_option IsObject false (args !! 0%nat) = false ->
  invoke (Encode args) m = (after_EnsureEncoder m, ThrowArgumentError 0).
Proof.
  intros H. destruct (EnsureEncoder_run m) as [e He].
  unfold invoke, Encode. rewrite (bind_value _ _ _ _ _ He).
  unfold REQ_OBJ_ARG.
  destruct (args !! 0%nat) as [v |]; cbn [from_option] in H;
    [rewrite H |]; reflexivity.
Qed.

Lemma Encode_rejected_second m args v v1 :
  args !! 0%nat = Some v -> IsObject v = true ->
  args !! 1%nat = Some v1 -> IsInt32 v1 = false ->
  invoke (Encode args) m = (after_EnsureEncoder m, ThrowArgumentError 1).
Proof.
  intros Ha Hv Hb Hv1. destruct (EnsureEncoder_run m) as [e He].
  unfold invoke, Encode. rewrite (bind_value _ _ _ _ _ He).
  unfold REQ_OBJ_ARG. rewrite Ha, Hv. cbv iota beta.
  rewrite (bind_value (mret v) _ _ _ v) by reflexivity.
  unfold OPT_INT_ARG. rewrite Hb, Hv1. reflexivity.
Qed.

(** X9. [Encode] looks after the encoder before it checks its arguments:
    a call whose arguments are rejected has already run [EnsureEncoder],
    so on an object without encoder it has asked the native library to
    create one; the native encode primitive is not reached. *)
Theorem Encode_creates_encoder_before_checking_arguments m args :
  (from_option IsObject false (args !! 0%nat) = false ->
   invoke (Encode args) m = (after_EnsureEncoder m, ThrowArgumentError 0))
  /\ (forall v v1,
        args !! 0%nat = Some v -> IsObject v = true ->
        args !! 1%nat = Some v1 -> IsInt32 v1 = false ->
        invoke (Encode args) m
        = (after_EnsureEncoder m, ThrowArgumentError 1))
  /\ (encoder (self m) = None ->
      calls (after_EnsureEncoder m)
      = calls m ++ [Call_encoder_create (rate (self m))
                      (channels (self m)) (application (self m))]).
Proof.
  split; [apply Encode_rejected_first |].
  split; [apply Encode_rejected_second |].
  intros Hn.
  destruct (opus_encoder_create (rate (self m)) (channels (self m))
              (application (self m)) (native m)) as [w [p e]] eqn:Hc.
  now rewrite (after_EnsureEncoder_absent m w p e Hn Hc).
Qed.

(** X10. On an object whose channel count is zero, [Encode] with accepted
    arguments divides by zero when it derives the frame length: the call
    has no defined result and the native encode primitive is never
    reached. *)
Theorem Encode_zero_channels_faults m args v maxPacketSize :
  CInt.to_size_t (channels (self m)) = 0 ->
  args !! 0%nat = Some v -> IsObject v = true ->
  let m1 := after_EnsureEncoder m in
  OPT_INT_ARG 1 args MAX_PACKET_SIZE m1 = (m1, inr maxPacketSize) ->
  invoke (Encode args) m = (m1, Fault)
  /\ encode_capacities (calls m1) = encode_capacities (calls m).
Proof.
  intros Hz Ha Hv m1 Hmax. split.
  - destruct (EnsureEncoder_run m) as [e He]. fold m1 in He.
    unfold invoke, Encode. rewrite (bind_value _ _ _ _ _ He).
    unfold REQ_OBJ_ARG. rewrite Ha, Hv. cbv iota beta.
    rewrite (bind_value (mret v) _ m1 m1 v) by reflexivity.
    rewrite (bind_value _ _ _ _ _ Hmax).
    rewrite (bind_value _ _ _ _ _ (gets_run _ _)).
    unfold size_t_div. subst m1. rewrite after_EnsureEncoder_channels, Hz.
    reflexivity.
  - apply after_EnsureEncoder_capacities.
Qed.

(** X11. The frame length [Encode] passes to the native encoder is the
    input length divided by [channels * 2], rounded down: for a positive
    channel count and a buffer of less than 2^32 bytes it is the [q] with
    [q * (channels * 2) <= length < (q + 1) * (channels * 2)].  Bytes
    that do not fill a whole frame are dropped without an error. *)
Theorem Encode_frame_length_is_floor m args v maxPacketSize :
  args !! 0%nat = Some v -> IsObject v = true ->
  let m1 := after_EnsureEncoder m in
  OPT_INT_ARG 1 args MAX_PACKET_SIZE m1 = (m1, inr maxPacketSize) ->
  0 < channels (self m) < 2 ^ 31 ->
  Buffer_Length v < 2 ^ 32 ->
  exists q,
    calls (invoke (Encode args) m).1
    = calls m1 ++ [Call_encode (encoder (self m1)) (Buffer_Data v) q
                     (Z.of_nat (length (outOpus (self m)))) maxPacketSize]
    /\ q * (channels (self m) * 2) <= Buffer_Length v
       < (q + 1) * (channels (self m) * 2).
Proof.
  intros Ha Hv m1 Hmax Hch Hlen.
  set (ch := channels (self m)) in *.
  assert (Hsz : CInt.to_size_t ch = ch) by (apply to_size_t_id; int_range).
  assert (Hch0 : CInt.to_size_t ch <> 0) by lia.
  assert (Hpos : 0 <= Buffer_Length v) by (destruct v; cbn; lia).
  assert (Hdiv : Buffer_Length v / 2 / CInt.to_size_t ch
                 = Buffer_Length v / (ch * 2)).
  { rewrite Hsz, Z.div_div by lia. f_equal. lia. }
  set (q := Buffer_Length v / (ch * 2)) in *.
  assert (Hq : q * (ch * 2) <= Buffer_Length v < (q + 1) * (ch * 2)).
  { pose proof (Z.div_mod (Buffer_Length v) (ch * 2) ltac:(lia)) as Hdm.
    pose proof (Z.mod_pos_bound (Buffer_Length v) (ch * 2) ltac:(lia)).
    fold q in Hdm. lia. }
  assert (Hq32 : CInt.to_int32 q = q).
  { apply to_int32_id. assert (0 <= q) by (apply Z.div_pos; lia).
    assert (q <= Buffer_Length v / 2).
    { subst q. rewrite Z.mul_comm, <- Z.div_div by lia.
      apply Z.div_le_upper_bound; [lia |].
      assert (0 <= Buffer_Length v / 2) by (apply Z.div_pos; lia). nia. }
    assert (Buffer_Length v / 2 < 2 ^ 31).
    { apply Z.div_lt_upper_bound; [lia |]. int_range. }
    int_range. }
  destruct (opus_encode (encoder (self m1)) (Buffer_Data v)
              (CInt.to_int32 (Buffer_Length v / 2 / CInt.to_size_t ch))
              maxPacketSize (native m1)) as [w [r written]] eqn:Hn.
  exists q. split; [| exact Hq].
  rewrite (Encode_run m args v maxPacketSize w r written Ha Hv Hmax Hch0 Hn).
  fold m1. cbn [fst calls log flag_overrun on_self on_native].
  fold ch. rewrite Hdiv, Hq32. subst m1.
  now rewrite after_EnsureEncoder_outOpus.
Qed.

(** ** The output arrays *)

Lemma after_EnsureDecoder_outPcm m :
  outPcm (self (after_EnsureDecoder m)) = outPcm (self m).
Proof.
  destruct (decoder (self m)) eqn:E.
  - by erewrite after_EnsureDecoder_present.
  - destruct (opus_decoder_create (rate (self m)) (channels (self m))
                (native m)) as [w [p e]] eqn:Hc.
    by erewrite after_EnsureDecoder_absent.
Qed.

Lemma after_EnsureDecoder_overrun m :
  overrun (after_EnsureDecoder m) = overrun m.
Proof.
  destruct (decoder (self m)) eqn:E.
  - by erewrite after_EnsureDecoder_present.
  - destruct (opus_decoder_create (rate (self m)) (channels (self m))
                (native m)) as [w [p e]] eqn:Hc.
    by erewrite after_EnsureDecoder_absent.
Qed.

(** X12. When the native decoder returns [n >= 0] samples and has written
    their [n * 2 * channels] bytes, which fit [outPcm], [Decode] returns
    exactly the bytes the decoder wrote, and leaves the rest of [outPcm]
    as it was. *)
Theorem Decode_returns_written_bytes m args v w n written :
  args !! 0%nat = Some v -> IsObject v = true ->
  let m1 := after_EnsureDecoder m in
  opus_decode (decoder (self m1)) (Buffer_Data v)
    (CInt.to_int32 (Buffer_Length v)) MAX_FRAME_SIZE 0 (native m1)
    = (w, (n, written)) ->
  0 <= n ->
  Z.of_nat (length written) = n * 2 * channels (self m) ->
  (length written <= length (outPcm (self m)))%nat ->
  n * 2 * channels (self m) < 2 ^ 31 ->
  let r := invoke (Decode args) m in
  returned_bytes r.2 = Some written
  /\ outPcm (self r.1)
     = written ++ drop (length written) (outPcm (self m))
  /\ overrun r.1 = overrun m.
Proof.
  intros Ha Hv m1 Hn Hpos Hlen Hfit Hrange r. subst r.
  rewrite (Decode_run m args v w n written Ha Hv Hn). fold m1.
  cbn [fst snd].
  assert (Hlt : (n <? 0) = false) by (apply Z.ltb_ge; lia).
  rewrite Hlt. unfold NanNewBufferHandle.
  rewrite (to_int32_id (n * 2 * channels (self m))) by int_range.
  cbn [self log flag_overrun on_self on_native with_outPcm outPcm overrun].
  assert (Hm1 : outPcm (self m1) = outPcm (self m))
    by apply after_EnsureDecoder_outPcm.
  rewrite Hm1.
  assert (Hst : store (outPcm (self m)) written
                = (written ++ drop (length written) (outPcm (self m)),
                   false)).
  { unfold store.
    destruct (Nat.leb_spec (length written) (length (outPcm (self m))));
      [reflexivity | lia]. }
  rewrite Hst. cbn [fst snd]. split; [| split].
  - cbn [returned_bytes]. rewrite length_app, length_drop.
    assert (Hle : (0 <=? n * 2 * channels (self m))
                  && (n * 2 * channels (self m)
                      <=? Z.of_nat (length written
                                    + (length (outPcm (self m))
                                       - length written)))
                  = true).
    { apply andb_true_iff. split; apply Z.leb_le; lia. }
    rewrite Hle. f_equal. rewrite <- Hlen, Nat2Z.id.
    now rewrite take_app_length.
  - reflexivity.
  - subst m1. rewrite after_EnsureDecoder_overrun. apply orb_false_r.
Qed.

(** X13. When the maximum output size handed to [Encode] (the default
    included) is no more than the size of [outOpus] and the native
    encoder writes no more bytes than that maximum, the call writes
    inside [outOpus]: no overrun is recorded, the bytes written replace a
    prefix of the array and the rest of it is unchanged. *)
Theorem Encode_within_capacity_no_overrun
    m args v maxPacketSize w r written :
  args !! 0%nat = Some v -> IsObject v = true ->
  let m1 := after_EnsureEncoder m in
  OPT_INT_ARG 1 args MAX_PACKET_SIZE m1 = (m1, inr maxPacketSize) ->
  CInt.to_size_t (channels (self m)) <> 0 ->
  let frameSize :=
    CInt.to_int32
      (Buffer_Length v / 2 / CInt.to_size_t (channels (self m))) in
  opus_encode (encoder (self m1)) (Buffer_Data v) frameSize maxPacketSize
    (native m1) = (w, (r, written)) ->
  Z.of_nat (length written) <= maxPacketSize ->
  maxPacketSize <= Z.of_nat (length (outOpus (self m))) ->
  let m2 := (invoke (Encode args) m).1 in
  overrun m2 = overrun m
  /\ outOpus (self m2)
     = written ++ drop (length written) (outOpus (self m)).
Proof.
  intros Ha Hv m1 Hmax Hch frameSize Hn Hw Hcap m2. subst m2.
  rewrite (Encode_run m args v maxPacketSize w r written Ha Hv Hmax Hch Hn).
  fold m1.
  cbn [fst self log flag_overrun on_self on_native with_outOpus outOpus
         overrun].
  assert (Hm1 : outOpus (self m1) = outOpus (self m))
    by apply after_EnsureEncoder_outOpus.
  rewrite Hm1.
  assert (Hst : store (outOpus (self m)) written
                = (written ++ drop (length written) (outOpus (self m)),
                   false)).
  { unfold store.
    destruct (Nat.leb_spec (length written) (length (outOpus (self m))));
      [reflexivity | lia]. }
  rewrite Hst. cbn [fst snd]. split; [| reflexivity].
  subst m1. rewrite after_EnsureEncoder_overrun. apply orb_false_r.
Qed.

(** X14. On an object that [New] has made, after any sequence of method
    calls in which no native call has written past an array, [outPcm]
    still has room for [MAX_FRAME_SIZE] samples per channel: a native
    decode that writes no more than the frame capacity it was given,
    [MAX_FRAME_SIZE * 2 * channels] bytes, writes inside the array, and
    still nothing has been written past an array. *)
Theorem Decode_within_constructed_outPcm
    (w0 : W) cargs obj ops args v w n written :
  (invoke (New true cargs) None).1 = Some obj ->
  0 <= channels obj * MAX_FRAME_SIZE < 2 ^ 31 ->
  let m := run ops (boot w0 obj) in
  overrun m = false ->
  args !! 0%nat = Some v -> IsObject v = true ->
  let m1 := after_EnsureDecoder m in
  opus_decode (decoder (self m1)) (Buffer_Data v)
    (CInt.to_int32 (Buffer_Length v)) MAX_FRAME_SIZE 0 (native m1)
    = (w, (n, written)) ->
  Z.of_nat (length written) <= MAX_FRAME_SIZE * 2 * channels obj ->
  Z.of_nat (length (outPcm (self m))) = MAX_FRAME_SIZE * 2 * channels obj
  /\ overrun (invoke (Decode args) m).1 = false
  /\ outPcm (self (invoke (Decode args) m).1)
     = written ++ drop (length written) (outPcm (self m)).
Proof.
  intros Hnew Hrange m Hno Ha Hv m1 Hn Hw.
  destruct (New_wraps cargs obj Hnew) as (r0 & c0 & a0 & _ & _ & _ & Hc).
  assert (Hsize : Z.of_nat (length (outPcm (self m)))
                  = MAX_FRAME_SIZE * 2 * channels obj).
  { subst m. rewrite (ev_outPcm _ _ (run_evolves ops (boot w0 obj))).
    cbn [boot self]. revert Hc. unfold OpusEncoder_ctor.
    destruct (_ <? 0) eqn:Hneg; [discriminate |]. intros [= <-].
    cbn [outPcm channels] in *. rewrite length_replicate.
    rewrite to_int32_id by int_range.
    rewrite Z2Nat.id by lia. lia. }
  split; [exact Hsize |].
  rewrite (Decode_run m args v w n written Ha Hv Hn). fold m1.
  cbn [fst self log flag_overrun on_self on_native overrun with_outPcm
         outPcm].
  assert (Hm1 : outPcm (self m1) = outPcm (self m))
    by apply after_EnsureDecoder_outPcm.
  rewrite Hm1.
  assert (Hst : store (outPcm (self m)) written
                = (written ++ drop (length written) (outPcm (self m)),
                   false)).
  { unfold store.
    destruct (Nat.leb_spec (length written) (length (outPcm (self m))));
      [reflexivity | lia]. }
  rewrite Hst. cbn [fst snd]. split; [| reflexivity].
  subst m1. rewrite after_EnsureDecoder_overrun, Hno. reflexivity.
Qed.

(** ** Messages, construction, retries *)

(** X15. Every message of [getDecodeError] is non-empty; the seven known
    codes have pairwise different messages, none of them the message for
    unknown codes: the message identifies the code. *)
Theorem getDecodeError_messages_distinct_nonempty :
  (forall code, getDecodeError code <> "")
  /\ (forall a b,
        a ∈ decode_error_table.*1 -> b ∈ decode_error_table.*1 ->
        getDecodeError a = getDecodeError b -> a = b)
  /\ (forall a,
        a ∈ decode_error_table.*1 ->
        getDecodeError a <> unknown_error_message).
Proof.
  split; [| split].
  - intros code. unfold getDecodeError.
    repeat (destruct (code =? _); [discriminate |]). discriminate.
  - intros a b Ha Hb.
    cbn in Ha, Hb. rewrite !elem_of_cons, elem_of_nil in Ha, Hb.
    destruct Ha as [-> | [-> | [-> | [-> | [-> | [-> | [-> | []]]]]]]];
      destruct Hb as [-> | [-> | [-> | [-> | [-> | [-> | [-> | []]]]]]]];
      vm_compute; intros H; first [reflexivity | discriminate H].
  - intros a Ha.
    cbn in Ha. rewrite !elem_of_cons, elem_of_nil in Ha.
    destruct Ha as [-> | [-> | [-> | [-> | [-> | [-> | [-> | []]]]]]]];
      vm_compute; discriminate.
Qed.

Lemma OPT_INT_ARG_cases {St} (I : nat) args (D : Z) (st : St) :
  (exists x, OPT_INT_ARG I args D st = (st, inr x))
  \/ OPT_INT_ARG I args D st = (st, inl (ThrowArgumentError I)).
Proof.
  unfold OPT_INT_ARG. destruct (args !! I) as [v |]; [| left; by eexists].
  destruct (IsInt32 v); [left; by eexists | right; reflexivity].
Qed.

(** X16. [New] wraps an object exactly when it returns the receiver: a
    call without [new], a rejected argument or a failed allocation leave
    the receiver's field empty. *)
Theorem New_wraps_only_on_success IsConstructCall args :
  let r := invoke (New IsConstructCall args) None in
  (r.2 = ReturnThis <-> exists obj, r.1 = Some obj)
  /\ (IsConstructCall = false ->
      r = (None,
           ThrowTypeError
             "Use the new operator to construct the OpusEncoder.")).
Proof.
  intros r. subst r. split; [| intros ->; reflexivity].
  destruct IsConstructCall;
    [| cbn; split; [discriminate | intros [obj H]; discriminate H]].
  unfold invoke, New. cbn [negb]. unfold mbind, M_bind.
  destruct (OPT_INT_ARG_cases 0 args 48000 (None : option OpusEncoder))
    as [[r0 ->] | ->];
    [| cbn; split; [discriminate | intros [obj H]; discriminate H]].
  destruct (OPT_INT_ARG_cases 1 args 1 (None : option OpusEncoder))
    as [[c0 ->] | ->];
    [| cbn; split; [discriminate | intros [obj H]; discriminate H]].
  destruct (OPT_INT_ARG_cases 2 args OPUS_APPLICATION_AUDIO
              (None : option OpusEncoder)) as [[a0 ->] | ->];
    [| cbn; split; [discriminate | intros [obj H]; discriminate H]].
  destruct (OpusEncoder_ctor r0 c0 a0) as [obj |];
    unfold complete, modify, mret, M_ret; cbn [fst snd].
  - split; [intros _; by eexists | reflexivity].
  - split; [discriminate | intros [obj H]; discriminate H].
Qed.

(** X17. [New] validates nothing about the configuration: any three
    integers, with a channel count for which the size of [outPcm] is a
    non-negative [int], give an object that stores them as they are, has
    no handle, an [outOpus] of [MAX_PACKET_SIZE] bytes and an [outPcm] of
    [channels * MAX_FRAME_SIZE] 16-bit samples.  Whether the codec
    supports the configuration only shows at the first method call. *)
Theorem New_stores_arguments r c a rest :
  CInt.in_int32 r -> CInt.in_int32 c -> CInt.in_int32 a ->
  0 <= c * MAX_FRAME_SIZE < 2 ^ 31 ->
  exists obj,
    invoke (New true (VInt32 r :: VInt32 c :: VInt32 a :: rest)) None
    = (Some obj, ReturnThis)
    /\ rate obj = r /\ channels obj = c /\ application obj = a
    /\ encoder obj = None /\ decoder obj = None
    /\ Z.of_nat (length (outOpus obj)) = MAX_PACKET_SIZE
    /\ Z.of_nat (length (outPcm obj)) = 2 * (c * MAX_FRAME_SIZE).
Proof.
  intros Hr Hc Ha Hn.
  assert (Hctor : OpusEncoder_ctor r c a
                  = Some (mkOpusEncoder None None r c a
                            (replicate (Z.to_nat MAX_PACKET_SIZE) x00)
                            (replicate
                               (Z.to_nat (2 * (c * MAX_FRAME_SIZE))) x00))).
  { unfold OpusEncoder_ctor. rewrite to_int32_id by int_range.
    assert (Hlt : (c * MAX_FRAME_SIZE <? 0) = false)
      by (apply Z.ltb_ge; lia).
    now rewrite Hlt. }
  eexists. split.
  - unfold invoke, New. cbn [negb]. unfold mbind, M_bind, OPT_INT_ARG.
    cbn [lookup list_lookup IsInt32 Int32Value].
    unfold mret at 1, M_ret at 1. cbv iota beta.
    unfold mret at 1, M_ret at 1. cbv iota beta.
    unfold mret at 1, M_ret at 1. cbv iota beta.
    rewrite !to_int32_id by assumption. rewrite Hctor. reflexivity.
  - cbn [rate channels application encoder decoder outOpus outPcm].
    rewrite !length_replicate.
    repeat split; unfold MAX_PACKET_SIZE, MAX_FRAME_SIZE in *; lia.
Qed.

Lemma Encode_after_evolves args m :
  evolves (after_EnsureEncoder m) (Encode args m).1.
Proof.
  destruct (EnsureEncoder_run m) as [e He].
  unfold Encode. rewrite (bind_value _ _ _ _ _ He).
  generalize (evolves_refl (after_EnsureEncoder m)).
  generalize (after_EnsureEncoder m) at 2 4.
  change (stable (evolves (after_EnsureEncoder m))
    (pcmBuffer ← REQ_OBJ_ARG 0 args;
     maxPacketSize ← OPT_INT_ARG 1 args MAX_PACKET_SIZE;
     this ← gets self;
     q ← size_t_div (Buffer_Length pcmBuffer / 2) (channels this);
     compressedLength ← call_encode (encoder this) (Buffer_Data pcmBuffer)
                          (CInt.to_int32 q) maxPacketSize;
     this0 ← gets self;
     mret (NanNewBufferHandle (outOpus this0) compressedLength))).
  stable_steps.
Qed.

Lemma GetBitrate_after_evolves args m :
  evolves (after_EnsureEncoder m) (GetBitrate args m).1.
Proof.
  destruct (EnsureEncoder_run m) as [e He].
  unfold GetBitrate. rewrite (bind_value _ _ _ _ _ He).
  generalize (evolves_refl (after_EnsureEncoder m)).
  generalize (after_EnsureEncoder m) at 2 4.
  change (stable (evolves (after_EnsureEncoder m))
    (this ← gets self;
     '(_, bitrate) ← call_get_bitrate (encoder this);
     match bitrate with
     | Some b => mret (ReturnInteger b)
     | None => mret ReturnIndeterminate
     end)).
  stable_steps. destruct a0 as [ret [b |]]; auto with stable.
Qed.

Lemma SetBitrate_after_evolves args v m :
  args !! 0%nat = Some v -> IsInt32 v = true ->
  evolves (after_EnsureEncoder m) (SetBitrate args m).1.
Proof.
  intros Ha Hv. destruct (EnsureEncoder_run m) as [e He].
  unfold SetBitrate, REQ_INT_ARG. rewrite Ha, Hv.
  rewrite (bind_value (mret (Int32Value v)) _ m m _) by reflexivity.
  rewrite (bind_value _ _ _ _ _ He).
  generalize (evolves_refl (after_EnsureEncoder m)).
  generalize (after_EnsureEncoder m) at 2 4.
  change (stable (evolves (after_EnsureEncoder m))
    (this ← gets self;
     call_set_bitrate (encoder this) (Int32Value v);;
     mret ReturnUndefined)).
  stable_steps.
Qed.

Lemma Decode_after_evolves args v m :
  args !! 0%nat = Some v -> IsObject v = true ->
  evolves (after_EnsureDecoder m) (Decode args m).1.
Proof.
  intros Ha Hv. destruct (EnsureDecoder_run m) as [e He].
  unfold Decode, REQ_OBJ_ARG. rewrite Ha, Hv.
  rewrite (bind_value (mret v) _ m m _) by reflexivity.
  rewrite (bind_value _ _ _ _ _ He).
  generalize (evolves_refl (after_EnsureDecoder m)).
  generalize (after_EnsureDecoder m) at 2 4.
  change (stable (evolves (after_EnsureDecoder m))
    (this ← gets self;
     decodedSamples ← call_decode (decoder this) (Buffer_Data v)
                        (CInt.to_int32 (Buffer_Length v)) MAX_FRAME_SIZE 0;
     if decodedSamples <? 0
     then mret (ThrowTypeError (getDecodeError decodedSamples))
     else this0 ← gets self;
          mret (NanNewBufferHandle (outPcm this0)
                  (CInt.to_int32 (decodedSamples * 2 * channels this0))))).
  stable_steps. destruct (_ <? 0); stable_steps.
Qed.

(** A call that reaches [EnsureEncoder] goes on from the machine that
    [EnsureEncoder] leaves; likewise for the decoder. *)
Lemma step_after_EnsureEncoder m op :
  reaches_EnsureEncoder op = true ->
  evolves (after_EnsureEncoder m) (step m op)
  /\ (forall P, about_handles P ->
        P (after_EnsureEncoder m) -> P (step m op)).
Proof.
  intros Hop. unfold step. rewrite invoke_state.
  destruct op as [args | args | args | args]; cbn [method];
    cbn [reaches_EnsureEncoder] in Hop; try discriminate.
  - split; [apply Encode_after_evolves |].
    intros P HA. now apply Encode_after.
  - destruct (args !! 0%nat) as [v |] eqn:Ha; [| discriminate].
    cbn [from_option] in Hop.
    split; [now apply (SetBitrate_after_evolves args v) |].
    intros P HA. now apply (SetBitrate_after P args v).
  - split; [apply GetBitrate_after_evolves |].
    intros P HA. now apply GetBitrate_after.
Qed.

Lemma step_after_EnsureDecoder m op :
  reaches_EnsureDecoder op = true ->
  evolves (after_EnsureDecoder m) (step m op)
  /\ (forall P, about_handles P ->
        P (after_EnsureDecoder m) -> P (step m op)).
Proof.
  intros Hop. unfold step. rewrite invoke_state.
  destruct op as [args | args | args | args]; cbn [method];
    cbn [reaches_EnsureDecoder] in Hop; try discriminate.
  destruct (args !! 0%nat) as [v |] eqn:Ha; [| discriminate].
  cbn [from_option] in Hop.
  split; [now apply (Decode_after_evolves args v) |].
  intros P HA. now apply (Decode_after P args v).
Qed.

(** X18. A call that reaches [EnsureEncoder] on an object without encoder
    always begins by asking the native library for one, with the object's
    configuration; when that creation gives no handle, the object is left
    without encoder, so that the next such call asks again.  Likewise for
    [Decode] and the decoder. *)
Theorem creation_retried_after_failure m op :
  (encoder (self m) = None -> reaches_EnsureEncoder op = true ->
   (exists l,
      calls (step m op)
      = calls m ++ Call_encoder_create (rate (self m)) (channels (self m))
                     (application (self m)) :: l)
   /\ (forall w e,
         opus_encoder_create (rate (self m)) (channels (self m))
           (application (self m)) (native m) = (w, (None, e)) ->
         encoder (self (step m op)) = None))
  /\ (decoder (self m) = None -> reaches_EnsureDecoder op = true ->
      (exists l,
         calls (step m op)
         = calls m ++ Call_decoder_create (rate (self m))
                        (channels (self m)) :: l)
      /\ (forall w e,
            opus_decoder_create (rate (self m)) (channels (self m))
              (native m) = (w, (None, e)) ->
            decoder (self (step m op)) = None)).
Proof.
  split.
  - intros Hn Hop.
    destruct (step_after_EnsureEncoder m op Hop) as [E HP].
    destruct (opus_encoder_create (rate (self m)) (channels (self m))
                (application (self m)) (native m)) as [w [p e]] eqn:Hc.
    pose proof (after_EnsureEncoder_absent m w p e Hn Hc) as Hm1.
    split.
    + destruct (ev_calls _ _ E) as (l & Hl & _). exists l.
      rewrite Hl, Hm1. cbn [calls log on_self on_native].
      now rewrite <- app_assoc.
    + intros w' e' [= -> -> ->].
      apply (HP _ (about_encoder None)). now rewrite Hm1.
  - intros Hn Hop.
    destruct (step_after_EnsureDecoder m op Hop) as [E HP].
    destruct (opus_decoder_create (rate (self m)) (channels (self m))
                (native m)) as [w [p e]] eqn:Hc.
    pose proof (after_EnsureDecoder_absent m w p e Hn Hc) as Hm1.
    split.
    + destruct (ev_calls _ _ E) as (l & Hl & _). exists l.
      rewrite Hl, Hm1. cbn [calls log on_self on_native].
      now rewrite <- app_assoc.
    + intros w' e' [= -> -> ->].
      apply (HP _ (about_decoder None)). now rewrite Hm1.
Qed.

(** ** Bitrate *)

Lemma bitrate_is_call_encode h x st pcm frame_size max_data_bytes :
  bitrate_undisturbed_contract h x ->
  stable (bitrate_is h x) (call_encode st pcm frame_size max_data_bytes).
Proof.
  intros Hlib m [He Hb]. unfold call_encode.
  pose proof (proj1 (proj2 (Hlib _ Hb)) st pcm frame_size max_data_bytes)
    as Hk.
  destruct (opus_encode _ _ _ _ _) as [w [r written]].
  destruct (store _ _) as [out over]. now split.
Qed.

Lemma bitrate_is_call_decode h x st data len frame_size decode_fec :
  bitrate_undisturbed_contract h x ->
  stable (bitrate_is h x) (call_decode st data len frame_size decode_fec).
Proof.
  intros Hlib m [He Hb]. unfold call_decode.
  pose proof (proj1 (proj2 (proj2 (Hlib _ Hb)))
                st data len frame_size decode_fec) as Hk.
  destruct (opus_decode _ _ _ _ _ _) as [w [r written]].
  destruct (store _ _) as [out over]. now split.
Qed.

Lemma bitrate_is_call_get_bitrate h x st :
  bitrate_undisturbed_contract h x ->
  stable (bitrate_is h x) (call_get_bitrate st).
Proof.
  intros Hlib m [He Hb]. unfold call_get_bitrate.
  pose proof (proj2 (proj2 (proj2 (Hlib _ Hb))) st) as Hk.
  destruct (opus_encoder_ctl_get_bitrate _ _) as [w r]. now split.
Qed.

Lemma bitrate_is_EnsureEncoder h x : stable (bitrate_is h x) EnsureEncoder.
Proof.
  intros m [He Hb]. fold (after_EnsureEncoder m).
  rewrite (after_EnsureEncoder_present m h He). now split.
Qed.

Lemma bitrate_is_EnsureDecoder h x :
  bitrate_undisturbed_contract h x ->
  stable (bitrate_is h x) EnsureDecoder.
Proof.
  intros Hlib m [He Hb]. fold (after_EnsureDecoder m).
  destruct (decoder (self m)) as [d |] eqn:Ed.
  - rewrite (after_EnsureDecoder_present m d Ed). now split.
  - pose proof (proj1 (Hlib _ Hb) (rate (self m)) (channels (self m)))
      as Hk.
    destruct (opus_decoder_create (rate (self m)) (channels (self m))
                (native m)) as [w [p e]] eqn:Hc.
    rewrite (after_EnsureDecoder_absent m w p e Ed Hc). now split.
Qed.

#[local] Hint Resolve bitrate_is_call_encode bitrate_is_call_decode
  bitrate_is_call_get_bitrate bitrate_is_EnsureEncoder
  bitrate_is_EnsureDecoder : stable.

(** Calls other than [SetBitrate] leave the bitrate where it is. *)
Lemma bitrate_is_step h x m op :
  bitrate_undisturbed_contract h x ->
  is_set_bitrate op = false ->
  bitrate_is h x m -> bitrate_is h x (step m op).
Proof.
  intros Hlib Hop. unfold step. rewrite invoke_state. revert m.
  change (stable (bitrate_is h x) (method op)).
  destruct op as [args | args | args | args]; cbn [method];
    try discriminate.
  - unfold Encode. stable_steps.
  - unfold Decode. stable_steps. destruct (_ <? 0); stable_steps.
  - unfold GetBitrate. stable_steps.
    destruct a1 as [ret [b |]]; auto with stable.
Qed.

Lemma bitrate_is_run h x ops m :
  bitrate_undisturbed_contract h x ->
  Forall (fun op => is_set_bitrate op = false) ops ->
  bitrate_is h x m -> bitrate_is h x (run ops m).
Proof.
  intros Hlib Hops. revert m.
  induction Hops as [| op ops Hop Hops IH]; intros m Hm; [exact Hm |].
  cbn [run foldl]. apply IH. now apply bitrate_is_step.
Qed.

(** C8, as amended. On an object whose encoder exists once
    [EnsureEncoder] has run, and for every bitrate [x] (64000 is one)
    that the native control interface accepts, reports back
    ([bitrate_contract]) and keeps until it is set again
    ([bitrate_undisturbed_contract]): [SetBitrate(x)], then any calls
    other than [SetBitrate], then [GetBitrate()] returns [x].  The first
    call applies [x] to the object's encoder through the control
    interface, the last queries that same encoder.  Nothing is said of an
    object whose encoder cannot be created. *)
Theorem SetBitrate_read_back_by_GetBitrate m h x w1 ops args :
  CInt.in_int32 x ->
  bitrate_contract x ->
  bitrate_undisturbed_contract h x ->
  let m1 := after_EnsureEncoder m in
  encoder (self m1) = Some h ->
  opus_encoder_ctl_set_bitrate (Some h) x (native m1) = (w1, OPUS_OK) ->
  Forall (fun op => is_set_bitrate op = false) ops ->
  let r1 := invoke (SetBitrate [VInt32 x]) m in
  let m3 := run ops r1.1 in
  let r2 := invoke (GetBitrate args) m3 in
  r1.2 = ReturnUndefined
  /\ calls r1.1 = calls m1 ++ [Call_set_bitrate (Some h) x]
  /\ r2.2 = ReturnInteger x
  /\ calls r2.1 = calls m3 ++ [Call_get_bitrate (Some h)].
Proof.
  intros Hx Hset_get Hkeep m1 Hh Hset Hops r1 m3 r2.
  assert (Hr1 : r1 = (log (Call_set_bitrate (Some h) x)
                        (on_native w1 m1), ReturnUndefined)).
  { subst r1.
    assert (Hset' : opus_encoder_ctl_set_bitrate
                      (encoder (self (after_EnsureEncoder m)))
                      (Int32Value (VInt32 x))
                      (native (after_EnsureEncoder m)) = (w1, OPUS_OK)).
    { fold m1. rewrite Hh. cbn [Int32Value].
      rewrite (to_int32_id x Hx). exact Hset. }
    rewrite (SetBitrate_run m [VInt32 x] x w1 OPUS_OK eq_refl Hset').
    fold m1. rewrite Hh. cbn [Int32Value]. now rewrite (to_int32_id x Hx). }
  assert (H2 : bitrate_is h x r1.1).
  { rewrite Hr1. cbn [fst]. split; [exact Hh |].
    destruct (Hset_get h (native m1) w1 Hset) as [w2 Hget].
    by exists w2, OPUS_OK. }
  assert (H3 : bitrate_is h x m3) by now apply bitrate_is_run.
  destruct H3 as [He3 (w3 & ret & Hget3)].
  assert (Hm3 : after_EnsureEncoder m3 = m3)
    by exact (after_EnsureEncoder_present m3 h He3).
  assert (Hget' :
    opus_encoder_ctl_get_bitrate (encoder (self (after_EnsureEncoder m3)))
      (native (after_EnsureEncoder m3)) = (w3, (ret, Some x)))
    by (rewrite Hm3, He3; exact Hget3).
  assert (Hr2 : r2 = (log (Call_get_bitrate (Some h)) (on_native w3 m3),
                      ReturnInteger x)).
  { subst r2. rewrite (GetBitrate_run m3 args w3 ret (Some x) Hget').
    now rewrite Hm3, He3. }
  rewrite Hr2. split; [now rewrite Hr1 |].
  split; [now rewrite Hr1 |]. split; reflexivity.
Qed.

End Facts.

(** ** The stand-in keeps to the contracts *)

Lemma StandIn_encode_contract : @encode_contract StandIn.World StandIn.lib.
Proof.
  intros st pcm frame_size max_data_bytes w w' r written.
  cbn [opus_encode StandIn.lib]. unfold StandIn.encode.
  destruct (st ≫= _) as [[[Fs stereo] b] |];
    [| intros [= _ <- _]; left; reflexivity].
  destruct (StandIn.frame_header Fs frame_size) as [h |];
    [| intros [= _ <- _]; left; reflexivity].
  destruct (Z.leb_spec max_data_bytes 0);
    [intros [= _ <- _]; left; reflexivity |].
  destruct (Z.ltb_spec max_data_bytes 3); intros [= _ <- <-].
  - left. reflexivity.
  - right. cbn. lia.
Qed.

(** The objects of the stand-in are those [New] makes. *)
Example StandIn_mono_constructed :
  boot StandIn.empty <$> StandIn.construct [] = Some StandIn.mono.
Proof. reflexivity. Qed.

Example StandIn_stereo_constructed :
  boot StandIn.empty <$> StandIn.construct [VInt32 48000; VInt32 2]
  = Some StandIn.stereo.
Proof. reflexivity. Qed.

Example StandIn_odd_rate_constructed :
  boot StandIn.empty <$> StandIn.construct [VInt32 44100]
  = Some StandIn.odd_rate.
Proof. reflexivity. Qed.

(** ** The theorems at concrete inputs *)

(** [new OpusEncoder().encode(b)] with a two-byte [b], one sample: not a
    frame length of the codec. *)
Lemma Encode_negative_status_witness :
  - 2 ^ 31 <= OPUS_BAD_ARG < 0
  /\ (let c := (invoke (Encode [VBuffer (StandIn.silence 2)])
                  StandIn.mono).2 in
      (exists data, c = ReturnBuffer data OPUS_BAD_ARG)
      /\ is_throw c = false
      /\ returned_length c = Some 4294967295).
Proof.
  split; [split; [discriminate | reflexivity] |].
  refine (Encode_negative_status_returned_as_data StandIn.mono
            [VBuffer (StandIn.silence 2)] (VBuffer (StandIn.silence 2))
            MAX_PACKET_SIZE _ OPUS_BAD_ARG [] eq_refl eq_refl eq_refl _ _ _).
  - discriminate.
  - reflexivity.
  - split; [discriminate | reflexivity].
Defined.

(** [new OpusEncoder(44100).encode(b)]: libopus has no encoder for that
    rate. *)
Lemma Encode_failed_creation_witness :
  encoder (self StandIn.odd_rate) = None
  /\ (let r := invoke (Encode [VBuffer (StandIn.silence 1920)])
                 StandIn.odd_rate in
      is_throw r.2 = false
      /\ encoder (self r.1) = None
      /\ exists frameSize capacity,
           calls r.1
           = calls StandIn.odd_rate
             ++ [Call_encoder_create 44100 1 OPUS_APPLICATION_AUDIO;
                 Call_encode None (StandIn.silence 1920) frameSize capacity
                   MAX_PACKET_SIZE]).
Proof.
  split; [reflexivity |].
  refine (Encode_ignores_failed_creation StandIn.odd_rate
            [VBuffer (StandIn.silence 1920)]
            (VBuffer (StandIn.silence 1920)) MAX_PACKET_SIZE
            StandIn.empty OPUS_BAD_ARG eq_refl eq_refl eq_refl eq_refl
            eq_refl _).
  discriminate.
Defined.

(** [decode] of a packet whose header byte names no frame duration. *)
Lemma Decode_negative_status_witness :
  OPUS_INVALID_PACKET < 0
  /\ (invoke (Decode [VBuffer [xff]]) StandIn.mono).2
     = ThrowTypeError "The compressed data passed is corrupted".
Proof.
  split; [reflexivity |].
  refine (proj1 (Decode_negative_status_throws_table_message StandIn.mono
                   [VBuffer [xff]] (VBuffer [xff]) _ OPUS_INVALID_PACKET
                   [] eq_refl eq_refl _ _)); reflexivity.
Defined.

(** [decode] of a 20 ms packet on a stereo object: 960 samples, 3840
    bytes. *)
Lemma Decode_success_witness :
  0 <= 960 * 2 * channels (self StandIn.stereo) < 2 ^ 31
  /\ (let r := invoke (Decode [VBuffer [x03; x00; x00]]) StandIn.stereo in
      decode_fec_flags (calls r.1) = [0]
      /\ returned_length r.2 = Some 3840).
Proof.
  split; [split; [discriminate | reflexivity] |].
  pose proof (Decode_success_fec_disabled_and_length StandIn.stereo
                [VBuffer [x03; x00; x00]] (VBuffer [x03; x00; x00])
                (after_EnsureDecoder StandIn.stereo).(native) 960
                (replicate (Z.to_nat 3840) x00)
                eq_refl eq_refl eq_refl) as H.
  destruct H as (_ & Hfec & _ & Hlen).
  - discriminate.
  - split; [discriminate | reflexivity].
  - split; [exact Hfec | exact Hlen].
Defined.

(** [encode] of 20 ms of stereo silence: 3840 bytes, 960 samples per
    channel. *)
Lemma Encode_accepted_input_witness :
  Buffer_Length (VBuffer (StandIn.silence 3840))
    mod (channels (self StandIn.stereo) * 2) = 0
  /\ (let r := invoke (Encode [VBuffer (StandIn.silence 3840)])
                 StandIn.stereo in
      encode_capacities (calls r.1) = [(3828, MAX_PACKET_SIZE)]
      /\ returned_length r.2 = Some 3
      /\ 0 < 3 <= MAX_PACKET_SIZE
      /\ returned_bytes r.2 = Some [x03; x00; x00]).
Proof.
  split; [reflexivity |].
  pose proof (Encode_accepted_input_length StandIn.stereo
                [VBuffer (StandIn.silence 3840)]
                (VBuffer (StandIn.silence 3840)) MAX_PACKET_SIZE
                (after_EnsureEncoder StandIn.stereo).(native) 3
                [x03; x00; x00]
                StandIn_encode_contract eq_refl eq_refl eq_refl) as H.
  destruct H as (Hcalls & _ & _ & (n & Hlen & -> & Hbound) & Hbytes).
  - split; reflexivity.
  - reflexivity.
  - reflexivity.
  - reflexivity.
  - discriminate.
  - split; [now rewrite Hcalls |].
    split; [exact Hlen | split; [exact Hbound |]].
    apply Hbytes. discriminate.
Defined.

(** C5, as the specification has it, fails: two bytes on
    [new OpusEncoder()] are an exact multiple of [channels * 2], one
    sample, and what [encode] returns has neither a length between 1 and
    the maximum output size nor the (negative) value the encoder
    reported as its length. *)
Lemma Encode_multiple_of_frame_not_enough :
  Buffer_Length (VBuffer (StandIn.silence 2))
    mod (channels (self StandIn.mono) * 2) = 0
  /\ ~ (exists n,
          returned_length
            (invoke (Encode [VBuffer (StandIn.silence 2)]) StandIn.mono).2
          = Some n
          /\ 0 < n <= MAX_PACKET_SIZE).
Proof.
  split; [reflexivity |].
  intros (n & Hn & _ & Hle). vm_compute in Hn.
  injection Hn as <-. now apply Hle.
Qed.

(** [encode(b)] with one argument on [new OpusEncoder()]. *)
Lemma Encode_default_maxPacketSize_witness :
  [VBuffer (StandIn.silence 1920)] !! 1%nat = None
  /\ (encode_capacities
        (calls (invoke (Encode [VBuffer (StandIn.silence 1920)])
                  StandIn.mono).1)).*2
     = [3828].
Proof.
  split; [reflexivity |].
  refine (proj1 (Encode_default_maxPacketSize StandIn.mono
                   [VBuffer (StandIn.silence 1920)]
                   (VBuffer (StandIn.silence 1920))
                   eq_refl eq_refl eq_refl _)).
  discriminate.
Defined.

(** C6, as the specification has it, fails: on [new OpusEncoder()],
    [encode(b)] with one argument does not hand 3276 to the native encoder
    as the maximum output size. *)
Lemma Encode_default_maxPacketSize_not_3276 :
  (encode_capacities
     (calls (invoke (Encode [VBuffer (StandIn.silence 1920)])
               StandIn.mono).1)).*2
  <> [3276].
Proof. vm_compute. discriminate. Qed.

(** [new OpusEncoder(16000)]: rate given, the other two omitted. *)
Lemma New_defaults_witness :
  [VInt32 16000] !! 1%nat = None /\ [VInt32 16000] !! 2%nat = None
  /\ exists obj,
       (invoke (New true [VInt32 16000]) None).1 = Some obj
       /\ rate obj = 16000 /\ channels obj = 1
       /\ application obj = OPUS_APPLICATION_AUDIO.
Proof.
  split; [reflexivity | split; [reflexivity |]].
  eexists. split; [reflexivity |]. split; [reflexivity |].
  destruct (proj2 New_defaults [VInt32 16000] _ eq_refl) as (_ & Hc & Ha).
  split; [exact (Hc eq_refl) | exact (Ha eq_refl)].
Defined.

(** After a first [getBitrate()], a failing [encode] (one sample), a
    failing [decode] (bad header), a [setBitrate] without argument and a
    good [decode] leave the encoder handle in place. *)
Lemma handles_kept_witness :
  let m := step StandIn.mono (OpGetBitrate []) in
  let ops := [OpEncode [VBuffer (StandIn.silence 2)];
              OpDecode [VBuffer [xff]];
              OpSetBitrate [];
              OpDecode [VBuffer [x03; x00; x00]]] in
  encoder (self m) = Some 1%positive
  /\ encoder (self (run ops m)) = Some 1%positive.
Proof.
  intros m ops. split; [reflexivity |].
  destruct (@handles_created_once_and_kept StandIn.World StandIn.lib)
    as (_ & _ & _ & _ & _ & Hkeep & _).
  apply Hkeep. reflexivity.
Defined.

(** [encode(b, 4000)]: a capacity above the 3828 bytes of [outOpus]. *)
Lemma Encode_maxPacketSize_unclamped_witness :
  3828 < 4000
  /\ CInt.in_int32 4000
  /\ encode_capacities
       (calls (invoke (Encode [VBuffer (StandIn.silence 1920); VInt32 4000])
                 StandIn.mono).1)
     = [(3828, 4000)].
Proof.
  split; [reflexivity |].
  assert (Hi : CInt.in_int32 4000) by (split; [discriminate | reflexivity]).
  split; [exact Hi |].
  pose proof (Encode_maxPacketSize_unclamped StandIn.mono
                [VBuffer (StandIn.silence 1920); VInt32 4000]
                (VBuffer (StandIn.silence 1920)) 4000
                (after_EnsureEncoder StandIn.mono).(native) 3
                [x03; x00; x00]
                eq_refl eq_refl eq_refl eq_refl Hi) as H.
  destruct H as (_ & Hcaps & _).
  - discriminate.
  - reflexivity.
  - exact Hcaps.
Defined.

(** ** Further properties at concrete inputs *)

Example StandIn_no_channels_constructed :
  boot StandIn.empty <$> StandIn.construct [VInt32 48000; VInt32 0]
  = Some StandIn.no_channels.
Proof. reflexivity. Qed.

(** Once [getBitrate()] has created the encoder, an [encode], another
    [getBitrate()] and a [decode] of a lost packet create no second
    encoder. *)
Lemma run_creates_only_absent_handles_witness :
  let m := step StandIn.mono (OpGetBitrate []) in
  let ops := [OpEncode [VBuffer (StandIn.silence 1920)];
              OpGetBitrate [];
              OpDecode [VBuffer []]] in
  encoder (self m) <> None
  /\ exists l,
       calls (run ops m) = calls m ++ l
       /\ Forall (fun c => is_encoder_create c = false) l.
Proof.
  intros m ops.
  assert (He : encoder (self m) <> None) by discriminate.
  split; [exact He |].
  destruct (run_creates_only_absent_handles ops m) as (l & Hl & Hno & _).
  exists l. split; [exact Hl | exact (Hno He)].
Defined.

(** [setBitrate(-5)]: the control call answers [OPUS_BAD_ARG], the method
    returns undefined. *)
Lemma bitrate_methods_witness :
  (opus_encoder_ctl_set_bitrate (Some 1%positive) (-5)
     (native (after_EnsureEncoder StandIn.mono))).2 = OPUS_BAD_ARG
  /\ (invoke (SetBitrate [VInt32 (-5)]) StandIn.mono).2 = ReturnUndefined.
Proof.
  split; [reflexivity |].
  exact (proj1 (bitrate_methods_never_report_native_failure StandIn.mono
                  [VInt32 (-5)]) (-5) eq_refl).
Defined.

(** [decode()] without argument. *)
Lemma rejected_argument_witness :
  from_option IsObject false (([] : list Value) !! 0%nat) = false
  /\ invoke (Decode []) StandIn.mono
     = (StandIn.mono, ThrowArgumentError 0).
Proof.
  split; [reflexivity |].
  exact (proj1 (rejected_argument_leaves_machine_untouched StandIn.mono [])
           eq_refl).
Defined.

(** [encode(true)]: rejected, and the encoder is there all the same. *)
Lemma Encode_creates_encoder_first_witness :
  from_option IsObject false ([VPrimitive] !! 0%nat) = false
  /\ invoke (Encode [VPrimitive]) StandIn.mono
     = (after_EnsureEncoder StandIn.mono, ThrowArgumentError 0)
  /\ encoder (self (after_EnsureEncoder StandIn.mono)) = Some 1%positive.
Proof.
  split; [reflexivity |]. split; [| reflexivity].
  exact (proj1 (Encode_creates_encoder_before_checking_arguments
                  StandIn.mono [VPrimitive]) eq_refl).
Defined.

(** [new OpusEncoder(48000, 0).encode(b)]. *)
Lemma Encode_zero_channels_witness :
  CInt.to_size_t (channels (self StandIn.no_channels)) = 0
  /\ (invoke (Encode [VBuffer (StandIn.silence 1920)])
        StandIn.no_channels).2 = Fault.
Proof.
  split; [reflexivity |].
  pose proof (Encode_zero_channels_faults StandIn.no_channels
                [VBuffer (StandIn.silence 1920)]
                (VBuffer (StandIn.silence 1920)) MAX_PACKET_SIZE
                eq_refl eq_refl eq_refl eq_refl) as [H _].
  now rewrite H.
Defined.

(** 1921 bytes on a mono object: 960 samples, the odd byte dropped. *)
Lemma Encode_frame_length_witness :
  Buffer_Length (VBuffer (StandIn.silence 1921)) < 2 ^ 32
  /\ exists q,
       calls (invoke (Encode [VBuffer (StandIn.silence 1921)])
                StandIn.mono).1
       = calls (after_EnsureEncoder StandIn.mono)
         ++ [Call_encode (Some 1%positive) (StandIn.silence 1921) q 3828
               MAX_PACKET_SIZE]
       /\ q * 2 <= 1921 < (q + 1) * 2.
Proof.
  split; [reflexivity |].
  refine (Encode_frame_length_is_floor StandIn.mono
            [VBuffer (StandIn.silence 1921)]
            (VBuffer (StandIn.silence 1921)) MAX_PACKET_SIZE
            eq_refl eq_refl eq_refl _ _).
  - split; reflexivity.
  - reflexivity.
Defined.

(** [decode] of a 20 ms packet on the stereo object: the 3840 bytes the
    decoder wrote. *)
Lemma Decode_returns_written_witness :
  (3840 <= length (outPcm (self StandIn.stereo)))%nat
  /\ returned_bytes
       (invoke (Decode [VBuffer [x03; x00; x00]]) StandIn.stereo).2
     = Some (replicate 3840 x00).
Proof.
  assert (Hfit : (length (replicate 3840 x00)
                  <= length (outPcm (self StandIn.stereo)))%nat)
    by (apply Nat.leb_le; vm_compute; reflexivity).
  split; [exact Hfit |].
  refine (proj1 (Decode_returns_written_bytes StandIn.stereo
                   [VBuffer [x03; x00; x00]] (VBuffer [x03; x00; x00])
                   (native (after_EnsureDecoder StandIn.stereo)) 960
                   (replicate 3840 x00) eq_refl eq_refl eq_refl _ _ Hfit _)).
  - discriminate.
  - vm_compute; reflexivity.
  - reflexivity.
Defined.

(** [encode] with the default maximum on [new OpusEncoder()]. *)
Lemma Encode_within_capacity_witness :
  MAX_PACKET_SIZE <= Z.of_nat (length (outOpus (self StandIn.mono)))
  /\ overrun (invoke (Encode [VBuffer (StandIn.silence 1920)])
                StandIn.mono).1 = false.
Proof.
  assert (Hcap : MAX_PACKET_SIZE
                 <= Z.of_nat (length (outOpus (self StandIn.mono))))
    by (apply Z.leb_le; vm_compute; reflexivity).
  split; [exact Hcap |].
  refine (proj1 (Encode_within_capacity_no_overrun StandIn.mono
                   [VBuffer (StandIn.silence 1920)]
                   (VBuffer (StandIn.silence 1920)) MAX_PACKET_SIZE
                   (native (after_EnsureEncoder StandIn.mono)) 3
                   [x03; x00; x00] eq_refl eq_refl eq_refl _ eq_refl _
                   Hcap)).
  - discriminate.
  - discriminate.
Defined.

(** [new OpusEncoder(48000, 2)], an [encode], then a [decode]. *)
Lemma Decode_within_constructed_outPcm_witness :
  0 <= 2 * MAX_FRAME_SIZE < 2 ^ 31
  /\ (let m := run [OpEncode [VBuffer (StandIn.silence 3840)]]
                 StandIn.stereo in
      overrun m = false
      /\ Z.of_nat (length (outPcm (self m))) = MAX_FRAME_SIZE * 2 * 2
      /\ overrun (invoke (Decode [VBuffer [x03; x00; x00]]) m).1 = false).
Proof.
  assert (Hr : 0 <= 2 * MAX_FRAME_SIZE < 2 ^ 31)
    by (split; [discriminate | reflexivity]).
  split; [exact Hr |]. intros m.
  assert (Hno : overrun m = false) by reflexivity.
  split; [exact Hno |].
  destruct (Decode_within_constructed_outPcm StandIn.empty
              [VInt32 48000; VInt32 2] (self StandIn.stereo)
              [OpEncode [VBuffer (StandIn.silence 3840)]]
              [VBuffer [x03; x00; x00]] (VBuffer [x03; x00; x00])
              (native (after_EnsureDecoder m)) 960 (replicate 3840 x00)
              eq_refl Hr Hno eq_refl eq_refl) as (Hsize & Hover & _).
  - reflexivity.
  - apply Z.leb_le. vm_compute. reflexivity.
  - split; [exact Hsize | exact Hover].
Defined.

(** After [getBitrate()], an [encode] and another [getBitrate()] on
    [new OpusEncoder()], nothing was written past an array and [outPcm]
    is as the constructor left it. *)
Lemma run_keeps_arrays_witness :
  let ops := [OpGetBitrate []; OpEncode [VBuffer (StandIn.silence 1920)];
              OpGetBitrate []] in
  overrun (run ops StandIn.mono) = false
  /\ Forall (fun op => is_decode op = false) ops
  /\ outPcm (self (run ops StandIn.mono)) = outPcm (self StandIn.mono).
Proof.
  intros ops.
  assert (Hno : overrun (run ops StandIn.mono) = false) by reflexivity.
  assert (Hops : Forall (fun op => is_decode op = false) ops)
    by (repeat constructor).
  split; [exact Hno |]. split; [exact Hops |].
  exact (proj2 (proj2 (proj2
           (run_keeps_arrays_of_other_methods ops StandIn.mono Hno))) Hops).
Defined.

(** The same three calls: the one encode of the sequence had the 3828
    bytes of [outOpus] as its output. *)
Lemma run_native_calls_witness :
  let ops := [OpGetBitrate []; OpEncode [VBuffer (StandIn.silence 1920)];
              OpGetBitrate []] in
  overrun (run ops StandIn.mono) = false
  /\ exists l,
       calls (run ops StandIn.mono) = calls StandIn.mono ++ l
       /\ Forall (fun c =>
            match c with
            | Call_decode _ _ _ cap _ _ =>
                cap = Z.of_nat (length (outPcm (self StandIn.mono)))
            | Call_encode _ _ _ cap _ =>
                cap = Z.of_nat (length (outOpus (self StandIn.mono)))
            | _ => True
            end) l.
Proof.
  intros ops.
  assert (Hno : overrun (run ops StandIn.mono) = false) by reflexivity.
  split; [exact Hno |].
  destruct (run_native_calls_use_fixed_parameters ops StandIn.mono)
    as (l & Hl & _ & Hcap).
  exists l. split; [exact Hl | exact (Hcap Hno)].
Defined.

(** The message for a corrupted packet is not the one for unknown
    codes. *)
Lemma getDecodeError_messages_witness :
  OPUS_INVALID_PACKET ∈ decode_error_table.*1
  /\ getDecodeError OPUS_INVALID_PACKET <> unknown_error_message.
Proof.
  assert (Hin : OPUS_INVALID_PACKET ∈ decode_error_table.*1)
    by (do 3 apply list_elem_of_further; apply list_elem_of_here).
  split; [exact Hin |].
  exact (proj2 (proj2 getDecodeError_messages_distinct_nonempty) _ Hin).
Defined.

(** [OpusEncoder()] called as a function. *)
Lemma New_without_new_witness :
  invoke (New false []) None
  = (None,
     ThrowTypeError "Use the new operator to construct the OpusEncoder.").
Proof.
  exact (proj2 (New_wraps_only_on_success false []) eq_refl).
Defined.

(** [new OpusEncoder(44100, 7, 0)]: no rate, channel count or profile of
    the codec, and an object all the same. *)
Lemma New_stores_arguments_witness :
  0 <= 7 * MAX_FRAME_SIZE < 2 ^ 31
  /\ exists obj,
       invoke (New true [VInt32 44100; VInt32 7; VInt32 0]) None
       = (Some obj, ReturnThis)
       /\ rate obj = 44100 /\ channels obj = 7 /\ application obj = 0.
Proof.
  assert (Hr : 0 <= 7 * MAX_FRAME_SIZE < 2 ^ 31)
    by (split; [discriminate | reflexivity]).
  split; [exact Hr |].
  destruct (New_stores_arguments 44100 7 0 []) as (obj & H & H1 & H2 & H3 & _).
  - split; [discriminate | reflexivity].
  - split; [discriminate | reflexivity].
  - split; [discriminate | reflexivity].
  - exact Hr.
  - exists obj. repeat split; assumption.
Defined.

(** [new OpusEncoder(44100)]: the first [encode] asks for an encoder,
    gets none, and leaves the object without one. *)
Lemma creation_retried_witness :
  encoder (self StandIn.odd_rate) = None
  /\ encoder (self (step StandIn.odd_rate
                      (OpEncode [VBuffer (StandIn.silence 1920)]))) = None.
Proof.
  split; [reflexivity |].
  destruct (proj1 (creation_retried_after_failure StandIn.odd_rate
                     (OpEncode [VBuffer (StandIn.silence 1920)]))
              eq_refl eq_refl) as [_ H].
  exact (H StandIn.empty OPUS_BAD_ARG eq_refl).
Defined.

(** ** Bitrate on the stand-in *)

Lemma StandIn_bitrate_contract_range x :
  500 < x <= 300000 -> @bitrate_contract StandIn.World StandIn.lib x.
Proof.
  intros Hx st w w1. cbn [opus_encoder_ctl_set_bitrate
                            opus_encoder_ctl_get_bitrate StandIn.lib].
  unfold StandIn.ctl_set_bitrate, StandIn.ctl_get_bitrate.
  cbn [mbind option_bind].
  destruct (StandIn.encoders w !! st) as [[[Fs stereo] b] |] eqn:E;
    cbn [fmap option_fmap option_map]; [| discriminate].
  assert (H1 : (x =? StandIn.OPUS_AUTO) = false)
    by (apply Z.eqb_neq; unfold StandIn.OPUS_AUTO; lia).
  assert (H2 : (x =? StandIn.OPUS_BITRATE_MAX) = false)
    by (apply Z.eqb_neq; unfold StandIn.OPUS_BITRATE_MAX; lia).
  assert (H3 : (x <=? 0) = false) by (apply Z.leb_gt; lia).
  assert (H4 : (x <=? 500) = false) by (apply Z.leb_gt; lia).
  assert (H5 : (300000 * StandIn.count stereo <? x) = false)
    by (apply Z.ltb_ge; destruct stereo; cbn; lia).
  rewrite H1, H2, H3, H4, H5. unfold StandIn.put_bitrate. intros [= <-].
  cbn [StandIn.encoders]. rewrite lookup_insert_eq. by eexists.
Qed.

Lemma StandIn_reports_same_encoders h x w w' :
  StandIn.encoders w' = StandIn.encoders w ->
  @reports_bitrate StandIn.World StandIn.lib h x w ->
  @reports_bitrate StandIn.World StandIn.lib h x w'.
Proof.
  intros He (w2 & ret & H). revert H.
  unfold reports_bitrate.
  cbn [opus_encoder_ctl_get_bitrate StandIn.lib].
  unfold StandIn.ctl_get_bitrate. cbn [mbind option_bind]. rewrite He.
  destruct (StandIn.encoders w !! h) as [[[Fs stereo] [b |]] |];
    intros [= _ <- <-]; by do 2 eexists.
Qed.

Lemma StandIn_bitrate_undisturbed h x :
  @bitrate_undisturbed_contract StandIn.World StandIn.lib h x.
Proof.
  intros w Hw. repeat split; intros;
    apply (StandIn_reports_same_encoders h x w); try exact Hw;
    cbn [opus_decoder_create opus_encode opus_decode
           opus_encoder_ctl_get_bitrate StandIn.lib].
  - unfold StandIn.decoder_create. now destruct (_ && _).
  - unfold StandIn.encode.
    destruct (st ≫= _) as [[[Fs stereo] b] |]; [| reflexivity].
    destruct (StandIn.frame_header _ _); [| reflexivity].
    destruct (_ <=? 0); [reflexivity |]. now destruct (_ <? 3).
  - unfold StandIn.decode.
    destruct (st ≫= _) as [[Fs stereo] |]; [| reflexivity].
    destruct (len <? 0); [reflexivity |].
    destruct (len =? 0); [now destruct (_ && _) |].
    destruct (head data ≫= _); [| reflexivity].
    now destruct (_ <? _).
  - unfold StandIn.ctl_get_bitrate.
    now destruct (st ≫= _) as [[[Fs stereo] [b |]] |].
Qed.

(** [setBitrate(64000)], then an [encode], a [decode], a [getBitrate()],
    then [getBitrate()] on [new OpusEncoder()]; and the same with 24000
    and nothing in between. *)
Lemma SetBitrate_read_back_witness :
  let ops := [OpEncode [VBuffer (StandIn.silence 1920)];
              OpDecode [VBuffer [x03; x00; x00]];
              OpGetBitrate []] in
  Forall (fun op => is_set_bitrate op = false) ops
  /\ (invoke (GetBitrate [])
        (run ops (invoke (SetBitrate [VInt32 64000]) StandIn.mono).1)).2
     = ReturnInteger 64000
  /\ (invoke (GetBitrate [])
        (invoke (SetBitrate [VInt32 24000]) StandIn.mono).1).2
     = ReturnInteger 24000.
Proof.
  intros ops.
  assert (Hops : Forall (fun op => is_set_bitrate op = false) ops)
    by (repeat constructor).
  assert (Hin : forall x, 500 < x <= 300000 -> CInt.in_int32 x)
    by (intros x Hx; int_range).
  split; [exact Hops |]. split.
  - refine (proj1 (proj2 (proj2
      (SetBitrate_read_back_by_GetBitrate StandIn.mono 1%positive 64000
         (StandIn.ctl_set_bitrate (Some 1%positive) 64000
            (after_EnsureEncoder StandIn.mono).(native)).1
         ops [] (Hin 64000 _) (StandIn_bitrate_contract_range 64000 _)
         (StandIn_bitrate_undisturbed 1%positive 64000)
         eq_refl eq_refl Hops))));
      (split; [reflexivity | discriminate]).
  - refine (proj1 (proj2 (proj2
      (SetBitrate_read_back_by_GetBitrate StandIn.mono 1%positive 24000
         (StandIn.ctl_set_bitrate (Some 1%positive) 24000
            (after_EnsureEncoder StandIn.mono).(native)).1
         [] [] (Hin 24000 _) (StandIn_bitrate_contract_range 24000 _)
         (StandIn_bitrate_undisturbed 1%positive 24000)
         eq_refl eq_refl (Forall_nil_2 _)))));
      (split; [reflexivity | discriminate]).
Defined.

(** C8, as the specification has it, fails: on [new OpusEncoder(44100)],
    an object for which no encoder can be created, [setBitrate(64000)]
    followed by [getBitrate()] does not return 64000. *)
Lemma SetBitrate_GetBitrate_without_encoder :
  (invoke (GetBitrate [])
     (invoke (SetBitrate [VInt32 64000]) StandIn.odd_rate).1).2
  <> ReturnInteger 64000.
Proof. vm_compute. discriminate. Qed.
